(** * GLT symbol kernels and interfaces: a shallow embedding

    This development embeds the code generators of [spl/api/ast/glt.py]
    ([GltKernel], [GltInterface]) and the facade of [spl/api/glt.py]
    ([DiscreteGltExpr]) and proves properties of the argument lists, output
    matrices and argument checks they produce.

    Python tuples and lists are lists; a Python [set] is a duplicate-free list
    together with an iteration order chosen by the interpreter; keyword
    arguments are finite maps with string keys; exceptions are the [Raise]
    branch of [result]. *)

From Stdlib Require Import ZArith Lia.
From stdpp Require Import base strings list gmap pretty.

Local Open Scope string_scope.
Local Open Scope list_scope.

(** ** Exceptions *)

Inductive Exc :=
| TypeError | NameError | KeyError | ValueError | IndexError | UnboundLocalError.

Inductive result (A : Type) :=
| Ok (a : A)
| Raise (e : Exc).
Arguments Ok {A} a.
Arguments Raise {A} e.

#[global] Instance result_ret : MRet result := @Ok.
#[global] Instance result_bind : MBind result :=
  λ A B f m, match m with Ok a => f a | Raise e => Raise e end.

#[global] Instance Exc_eq_dec : EqDecision Exc.
Proof. solve_decision. Defined.

(** ** Symbolic expressions

    The reduced symbol is a sympy expression.  Only the node classes that
    [glt.py] inspects are distinguished.  Partial derivatives are kept in the
    form sympde produces: a chain of [dx]/[dy]/[dz] (or their logical
    versions) applied to a field or to a mapping component. *)

Inductive Axis := AxisX | AxisY | AxisZ.

Record ScalarField := { field_name : string; field_space : string }.

Inductive DTerm :=
| TScalarField (f : ScalarField)
| TIndexedVectorField (name space : string) (i : nat)
| TMappingComponent (mapping : string) (i : nat)
| TPartial (logical : bool) (ax : Axis) (t : DTerm).

Inductive Expr :=
| Number (z : Z)
| Sym (name : string)
| ImaginaryUnit
| Term (t : DTerm)
| SymbolicDeterminant (mapping : string)
| Add (a b : Expr)
| Mul (a b : Expr)
| Pow (a b : Expr)
| Func (name : string) (a : Expr).

#[global] Instance Axis_eq_dec : EqDecision Axis.
Proof. solve_decision. Defined.
#[global] Instance ScalarField_eq_dec : EqDecision ScalarField.
Proof. solve_decision. Defined.
#[global] Instance DTerm_eq_dec : EqDecision DTerm.
Proof. solve_decision. Defined.
#[global] Instance Expr_eq_dec : EqDecision Expr.
Proof. solve_decision. Defined.

(** The symbol is a scalar expression or a dense matrix; [expr[i,j]] is
    [entry i j].  sympy's [Matrix] is the mutable dense class, of which
    [ImmutableDenseMatrix] is not a subclass. *)
Inductive SymbolExpr :=
| Scalar (e : Expr)
| DenseMatrix (immutable : bool) (rows cols : nat) (entry : nat → nat → Expr).

(** [isinstance(expr, (Matrix, ImmutableDenseMatrix))] *)
Definition is_matrix (s : SymbolExpr) : bool :=
  match s with Scalar _ => false | DenseMatrix _ _ _ _ => true end.

(** [range(0, n_rows) x range(0, n_cols)], rows outermost *)
Definition cell_indices (n_rows n_cols : nat) : list (nat * nat) :=
  i ← seq 0 n_rows; (λ j, (i, j)) <$> seq 0 n_cols.

(** The cells of a symbol, in row-major order; a scalar is its own only cell. *)
Definition cells (s : SymbolExpr) : list Expr :=
  match s with
  | Scalar e => [e]
  | DenseMatrix _ r c entry => (λ ij, entry ij.1 ij.2) <$> cell_indices r c
  end.

(** *** Traversal and atoms (sympy, pyccel, sympde) *)

Inductive Cls :=
| C_partial_derivatives | C_logical_partial_derivatives
| CScalarField | CVectorField | CIndexedVectorField
| CSymbolicDeterminant | CImaginaryUnit.

Definition isinstance (e : Expr) (c : Cls) : bool :=
  match e, c with
  | Term (TPartial false _ _), C_partial_derivatives => true
  | Term (TPartial true _ _), C_logical_partial_derivatives => true
  | Term (TScalarField _), CScalarField => true
  | Term (TIndexedVectorField _ _ _), CIndexedVectorField => true
  | SymbolicDeterminant _, CSymbolicDeterminant => true
  | ImaginaryUnit, CImaginaryUnit => true
  | _, _ => false
  end.

Definition isinstance_any (cls : list Cls) (e : Expr) : bool :=
  existsb (isinstance e) cls.

Fixpoint preorder_term (t : DTerm) : list Expr :=
  Term t :: match t with TPartial _ _ t' => preorder_term t' | _ => [] end.

(** sympy's [preorder_traversal]: a node, then its arguments left to right. *)
Fixpoint preorder_traversal (e : Expr) : list Expr :=
  match e with
  | Term t => preorder_term t
  | Add a b | Mul a b | Pow a b =>
      e :: preorder_traversal a ++ preorder_traversal b
  | Func _ a => e :: preorder_traversal a
  | _ => [e]
  end.

(** Keep the first occurrence of every element. *)
Fixpoint unique_go {A} `{EqDecision A} (seen l : list A) : list A :=
  match l with
  | [] => []
  | x :: l' =>
      if decide (x ∈ seen) then unique_go seen l'
      else x :: unique_go (x :: seen) l'
  end.
Definition unique {A} `{EqDecision A} (l : list A) : list A := unique_go [] l.

(** [e.atoms(cls)]: the set of nodes of [e] that are instances of [cls],
    as a duplicate-free list. *)
Definition atoms (cls : list Cls) (e : Expr) : list Expr :=
  unique (filter (λ n, isinstance_any cls n = true) (preorder_traversal e)).

Definition as_scalar_field (e : Expr) : option ScalarField :=
  match e with Term (TScalarField f) => Some f | _ => None end.

(** [e.atoms(ScalarField)] *)
Definition atoms_ScalarField (e : Expr) : list ScalarField :=
  unique (omap as_scalar_field (preorder_traversal e)).

(** [expr.atoms(ScalarField)] on a whole symbol *)
Definition symbol_atoms_ScalarField (s : SymbolExpr) : list ScalarField :=
  unique (e ← cells s; omap as_scalar_field (preorder_traversal e)).

(** [expr.atoms(ImaginaryUnit)] *)
Definition atoms_ImaginaryUnit (e : Expr) : list Expr := atoms [CImaginaryUnit] e.

Fixpoint _atomic_term (cls : list Cls) (t : DTerm) : list Expr :=
  if isinstance_any cls (Term t) then [Term t]
  else match t with TPartial _ _ t' => _atomic_term cls t' | _ => [] end.

Fixpoint _atomic_nodes (cls : list Cls) (e : Expr) : list Expr :=
  match e with
  | Term t => _atomic_term cls t
  | Add a b | Mul a b | Pow a b =>
      if isinstance_any cls e then [e]
      else _atomic_nodes cls a ++ _atomic_nodes cls b
  | Func _ a => if isinstance_any cls e then [e] else _atomic_nodes cls a
  | _ => if isinstance_any cls e then [e] else []
  end.

(** pyccel's [_atomic(e, cls=...)]: the nodes of the given classes met in
    pre-order, without descending below a node that matched and without
    repeating a node already seen. *)
Definition _atomic (cls : list Cls) (s : SymbolExpr) : list Expr :=
  unique (e ← cells s; _atomic_nodes cls e).

(** *** Derivative orders (sympde) *)

Record DerivOrders := { ord_x : nat; ord_y : nat; ord_z : nat }.

Definition orders_zero : DerivOrders := {| ord_x := 0; ord_y := 0; ord_z := 0 |}.

Definition orders_max (a b : DerivOrders) : DerivOrders :=
  {| ord_x := ord_x a `max` ord_x b;
     ord_y := ord_y a `max` ord_y b;
     ord_z := ord_z a `max` ord_z b |}.

Fixpoint term_orders (t : DTerm) : DerivOrders :=
  match t with
  | TPartial _ ax t' =>
      let d := term_orders t' in
      match ax with
      | AxisX => {| ord_x := S (ord_x d); ord_y := ord_y d; ord_z := ord_z d |}
      | AxisY => {| ord_x := ord_x d; ord_y := S (ord_y d); ord_z := ord_z d |}
      | AxisZ => {| ord_x := ord_x d; ord_y := ord_y d; ord_z := S (ord_z d) |}
      end
  | _ => orders_zero
  end.

(** [get_max_partial_derivatives(e)]: the dictionary with keys x, y, z that
    gives, per axis, the highest number of derivatives any term of [e]
    carries along that axis (all zero when [e] has no derivative). *)
Fixpoint get_max_partial_derivatives (e : Expr) : DerivOrders :=
  match e with
  | Term t => term_orders t
  | Add a b | Mul a b | Pow a b =>
      orders_max (get_max_partial_derivatives a) (get_max_partial_derivatives b)
  | Func _ a => get_max_partial_derivatives a
  | _ => orders_zero
  end.

(** The same on a whole symbol (the matrix is traversed as one expression). *)
Definition symbol_max_partial_derivatives (s : SymbolExpr) : DerivOrders :=
  foldr (λ e d, orders_max (get_max_partial_derivatives e) d) orders_zero (cells s).

(** [max(d.values())] *)
Definition max_values (d : DerivOrders) : nat := ord_x d `max` (ord_y d `max` ord_z d).

(** ** Objects placed in argument lists (sympy and pyccel nodes) *)

Inductive Obj :=
| Symbol (name : string)
| Constant (name : string)
| IndexedBase (name : string)
| PyVariable (dtype name : string)
| IndexedVariable (name dtype : string) (rank : nat)
| FieldObj (f : ScalarField)
| DottedName (base : Obj) (attrs : list string)
| Indexed (base : Obj) (i : nat).

#[global] Instance Obj_eq_dec : EqDecision Obj.
Proof. solve_decision. Defined.

(** [str(a)] *)
Fixpoint str (o : Obj) : string :=
  match o with
  | Symbol n | Constant n | IndexedBase n | PyVariable _ n | IndexedVariable n _ _ => n
  | FieldObj f => field_name f
  | DottedName b attrs => foldl (λ s a, s +:+ "." +:+ a) (str b) attrs
  | Indexed b i => str b +:+ "[" +:+ pretty i +:+ "]"
  end.

(** Call arguments and the right-hand sides of assignments. *)
Inductive CallArg :=
| AObj (o : Obj)
| ATuple (l : list Obj)
| AString (s : string).

Inductive PyExpr :=
| EObj (o : Obj)
| ETuple (l : list Obj)
| ENil
| ELen (o : Obj)
| ECall (f : string) (args : list CallArg).

Inductive Cond :=
| Is (a : Obj) (b : PyExpr).

#[local] Unset Elimination Schemes.
Inductive Stmt :=
| Assign (lhs : list Obj) (rhs : PyExpr)
| If (c : Cond) (body : list Stmt)
| FunctionCall (f : string) (args : list Obj)
| Return (v : PyExpr).
#[local] Set Elimination Schemes.

(** A declared parameter: positional, or a keyword defaulting to [None]
    ([Assign(M, Nil())] in an argument list). *)
Inductive Param :=
| Positional (o : Obj)
| DefaultNil (o : Obj).

#[global] Instance Param_eq_dec : EqDecision Param.
Proof. solve_decision. Defined.

(** The [decorators] of a generated function: none, or [{'jit': []}]. *)
Inductive Decorator :=
| NoDecorator
| JitDecorator.

Record FunctionDef := {
  fd_name : string;
  fd_args : list Param;
  fd_body : list Stmt;
  fd_decorators : Decorator;
  fd_header : option (string * list Obj)
}.

Definition Import : Type := string * string.

(** ** Domain objects *)

Record Mapping := { mapping_name : string }.

Record FemSpace := { space_name : string; ncells : list nat; degree : list nat }.

Record Form := { form_fields : list ScalarField; form_ldim : nat }.

(** gelato's [GltExpr]: [ldim] is the dimension of its form. *)
Record GltExpr := {
  form : Form;
  space_variables : list Obj;
  constants : list Obj
}.
Definition ldim (e : GltExpr) : nat := form_ldim (form e).

(** A backend configuration is a dictionary read at the key ["name"]. *)
Abbreviation Backend := (gmap string string).

#[global] Instance Mapping_eq_dec : EqDecision Mapping.
Proof. solve_decision. Defined.

(** ** Sub-kernels *)

(** Modelled from the spec: [EvalArrayField] (spl/api/ast/evaluation.py) is
    not among the sources.  Following the provider contract, a field
    sub-kernel is built from a space, the expressions to evaluate, the
    mapping and the backend; the record keeps what the caller passed. *)
Record EvalArrayField := {
  ef_space : string;
  ef_fields_expressions : list Expr;
  ef_mapping : option Mapping;
  ef_backend : option Backend
}.

(** Modelled from the spec: [EvalArrayMapping] (spl/api/ast/evaluation.py)
    is not among the sources.  Following the provider contract, a mapping
    sub-kernel is built from a space, the mapping, [nderiv], [is_rational]
    and the backend; the record keeps what the caller passed. *)
Record EvalArrayMapping := {
  em_space : FemSpace;
  em_mapping : Mapping;
  em_nderiv : nat;
  em_is_rational_mapping : option bool;
  em_backend : option Backend
}.

Inductive SubKernel :=
| DepField (e : EvalArrayField)
| DepMapping (e : EvalArrayMapping).

(** ** External capabilities

    The symbolic reduction, the expression printer, the sub-kernel providers,
    the random tag and the order in which the interpreter iterates a set are
    inputs of the generators. *)

Class SymbolicEngine := {
  gelatize : Form → list nat → list nat → option Mapping → SymbolExpr;
  expand : SymbolExpr → SymbolExpr;
  evalf : SymbolExpr → SymbolExpr;
  (** [print_expression(e, logical=..., mapping_name=...)] *)
  print_expression : bool → bool → Expr → string;
  (** [math_atoms_as_str] *)
  math_atoms_as_str : SymbolExpr → list string
}.

(** Modelled from the spec: what a mapping sub-kernel exposes ([elements],
    [mapping_coeffs], [mapping_values]) is decided in evaluation.py, which is
    not among the sources; it is left to the provider. *)
Class Providers := {
  elements : EvalArrayMapping → list Expr;
  mapping_coeffs_of : EvalArrayMapping → list Obj;
  mapping_values_of : EvalArrayMapping → list Obj;
  (** [print_expression] on the objects a mapping sub-kernel exposes *)
  print_object : Obj → string
}.

(** The interpreter: [tuple(s)] of a set [s] lists its elements in an order
    of the interpreter's choosing; [random_string] draws a tag. *)
Class Interpreter := {
  set_iter : list ScalarField → list ScalarField;
  set_iter_perm : ∀ l, set_iter l ≡ₚ l;
  random_string : nat → string
}.

(** ** Utilities *)

(** Modelled from the spec: [variables] (spl/api/ast/utilities.py) is not
    among the sources.  With sympy's range syntax, the pattern
    ['p1:%d' % (dim+1)] names [p1 .. p<dim>]; one object is made per name. *)
Definition range_names (prefix : string) (dim : nat) : list string :=
  (λ i, prefix +:+ pretty i) <$> seq 1 dim.

(** Modelled from the spec: [variables(pattern, dtype)] of utilities.py,
    one pyccel [Variable] per name of the pattern. *)
Definition variables_range (prefix : string) (dim : nat) (dtype : string) : list Obj :=
  PyVariable dtype <$> range_names prefix dim.

(** Modelled from the spec: [variables(pattern, dtype=..., rank=...,
    cls=IndexedVariable)] of utilities.py. *)
Definition indexed_variables_range (prefix : string) (dim : nat)
    (dtype : string) (rank : nat) : list Obj :=
  (λ n, IndexedVariable n dtype rank) <$> range_names prefix dim.

(** Modelled from the spec: [variables(names, ...)] of utilities.py on a
    list of names. *)
Definition indexed_variables (names : list string) (dtype : string) (rank : nat) : list Obj :=
  (λ n, IndexedVariable n dtype rank) <$> names.

(** Modelled from the spec: [is_field] (spl/api/ast/utilities.py) is not among
    the sources.  A term is field-valued when it is a scalar field or a
    (physical or logical) partial derivative of a field-valued term. *)
Fixpoint is_field_term (t : DTerm) : bool :=
  match t with
  | TScalarField _ => true
  | TPartial _ _ t' => is_field_term t'
  | _ => false
  end.
(** Modelled from the spec: [is_field] on an expression node. *)
Definition is_field (e : Expr) : bool :=
  match e with Term t => is_field_term t | _ => false end.

(** [sorted(l, key=...)] on string keys: stable, ascending. *)
Fixpoint insert_by {A} (key : A → string) (x : A) (l : list A) : list A :=
  match l with
  | [] => [x]
  | y :: l' => if String.ltb (key y) (key x) then y :: insert_by key x l' else x :: l
  end.
Definition sorted {A} (key : A → string) (l : list A) : list A :=
  foldr (insert_by key) [] l.

(** [itertools.groupby]: maximal runs of equal keys. *)
Fixpoint groupby {A} (key : A → string) (l : list A) : list (string * list A) :=
  match l with
  | [] => []
  | x :: l' =>
      match groupby key l' with
      | (k, g) :: rest =>
          if decide (key x = k) then (k, x :: g) :: rest
          else (key x, [x]) :: (k, g) :: rest
      | [] => [(key x, [x])]
      end
  end.

(** [a & b] is non-empty *)
Definition intersects (a b : list string) : bool :=
  existsb (λ x, bool_decide (x ∈ b)) a.

(** Modelled from the spec: [SplBasic] (spl/api/ast/basic.py) is not among the
    sources.  It stores tag, name, mapping and [is_rational_mapping], starts
    with an empty dependency list, and names an object [<prefix>_<tag>] when
    no name is given. *)
Definition default_name (prefix tag : string) (name : option string) : string :=
  default (prefix +:+ "_" +:+ tag) name.

(** ** The kernel: [GltKernel] *)

(** The generated function of a kernel: name, positional arguments and the
    backend metadata.  The loop nest of its body is not embedded; no property
    below reads it. *)
Record KernelDef := {
  kd_name : string;
  kd_args : list Obj;
  kd_decorators : Decorator;
  kd_header : option (string * list Obj)
}.

Record GltKernel := {
  k_tag : string;
  k_name : string;
  k_mapping : option Mapping;
  k_is_rational_mapping : option bool;
  k_expr : GltExpr;
  k_spaces : FemSpace * FemSpace;
  k_backend : option Backend;
  k_n_rows : nat;
  k_n_cols : nat;
  k_coordinates : list Obj;
  k_with_coordinates : bool;
  k_eval_fields : list EvalArrayField;
  k_eval_mapping : option EvalArrayMapping;
  k_dependencies : list SubKernel;
  k_max_nderiv : nat;
  k_basic_args : list Obj;
  k_global_mats : list Obj;
  k_global_mats_types : list string;
  k_imports : list Import;
  k_func : KernelDef
}.

(** [expr.subs(old, new)] for two symbols *)
Fixpoint subs (old new : string) (e : Expr) : Expr :=
  match e with
  | Sym n => if decide (n = old) then Sym new else e
  | Add a b => Add (subs old new a) (subs old new b)
  | Mul a b => Mul (subs old new a) (subs old new b)
  | Pow a b => Pow (subs old new a) (subs old new b)
  | Func f a => Func f (subs old new a)
  | _ => e
  end.

Definition symbol_subs (old new : string) (s : SymbolExpr) : SymbolExpr :=
  match s with
  | Scalar e => Scalar (subs old new e)
  | DenseMatrix im r c entry => DenseMatrix im r c (λ i j, subs old new (entry i j))
  end.

(** [for ti, tx in zip(tis, txs): expr = expr.subs(tx, ti)] *)
Definition subs_all (olds news : list string) (s : SymbolExpr) : SymbolExpr :=
  foldl (λ s on, symbol_subs on.1 on.2 s) s (zip olds news).

Definition atoms_types : list Cls :=
  [C_partial_derivatives; C_logical_partial_derivatives; CScalarField;
   CVectorField; CIndexedVectorField; CSymbolicDeterminant].

(** [expr[i,j]], or the expression itself for a scalar symbol *)
Definition cell (s : SymbolExpr) (i j : nat) : Expr :=
  match s with
  | Scalar e => e
  | DenseMatrix _ _ _ entry => entry i j
  end.

Definition shape (s : SymbolExpr) : nat * nat :=
  match s with
  | Scalar _ => (1, 1)
  | DenseMatrix _ r c _ => (r, c)
  end.

(** The dtype tag of one expression *)
Definition dtype_of (e : Expr) : string :=
  if decide (atoms_ImaginaryUnit e = []) then "float" else "complex".

(** [GltKernel.build_arguments] *)
Definition kernel_build_arguments (basic_args consts data : list Obj) : list Obj :=
  let other := data in
  let other := if decide (consts = []) then other else other ++ consts in
  basic_args ++ other.

Section Generators.
Context {SE : SymbolicEngine} {PR : Providers} {PY : Interpreter}.

(** The reduced symbol: [gelatize], then [expand], then [evalf]. *)
Definition reduced_symbol (expr : GltExpr) (spaces : FemSpace * FemSpace)
    (mapping : option Mapping) : SymbolExpr :=
  let Vh := spaces.1 in
  evalf (expand (gelatize (form expr) (degree Vh) (ncells Vh) mapping)).

(** ... with [tx, ty, tz] and [x, y, z] replaced by [t1..] and [x1..] *)
Definition renamed_symbol (expr : GltExpr) (spaces : FemSpace * FemSpace)
    (mapping : option Mapping) : SymbolExpr :=
  let dim := ldim expr in
  let s := reduced_symbol expr spaces mapping in
  let s := subs_all (take dim ["tx"; "ty"; "tz"]) (range_names "t" dim) s in
  subs_all (take dim ["x"; "y"; "z"]) (range_names "x" dim) s.

(** The inner loop over [atomic_expr_field] for one group of field names;
    [space] is the local variable of that name, unbound at first. *)
Fixpoint scan_expressions (g_names : list string) (es : list Expr)
    (fields_expressions : list Expr) (space : option string)
    : result (list Expr * option string) :=
  match es with
  | [] => Ok (fields_expressions, space)
  | e :: es' =>
      let fs := atoms_ScalarField e in
      if intersects (field_name <$> fs) g_names then
        match head (set_iter fs) with
        | None => Raise IndexError
        | Some f =>
            scan_expressions g_names es' (fields_expressions ++ [e])
              (Some (field_space f))
        end
      else scan_expressions g_names es' fields_expressions space
  end.

(** The loop over the groups of [groupby(data, keyfunc)] *)
Fixpoint build_eval_fields (groups : list (string * list ScalarField))
    (atomic_expr_field : list Expr) (mapping : option Mapping)
    (backend : option Backend) (space : option string)
    : result (list EvalArrayField) :=
  match groups with
  | [] => Ok []
  | (_, group) :: rest =>
      r ← scan_expressions (field_name <$> group) atomic_expr_field [] space;
      match r.2 with
      | None => Raise UnboundLocalError
      | Some sp =>
          let eval_field :=
            {| ef_space := sp; ef_fields_expressions := r.1;
               ef_mapping := mapping; ef_backend := backend |} in
          evs ← build_eval_fields rest atomic_expr_field mapping backend r.2;
          Ok (eval_field :: evs)
      end
  end.

(** The maximum derivative order: starts at 1; a [Matrix] is scanned cell by
    cell, anything else is handed to [get_max_partial_derivatives] whole. *)
Definition compute_nderiv (s : SymbolExpr) : nat :=
  match s with
  | DenseMatrix false r c entry =>
      foldl (λ nderiv ij,
               nderiv `max` max_values (get_max_partial_derivatives (entry ij.1 ij.2)))
            1 (cell_indices r c)
  | _ => 1 `max` max_values (symbol_max_partial_derivatives s)
  end.

(** Lines 607-614: the backend metadata of the generated function.
    [self.backend['name']] fails on [None] and on a dictionary without the
    key; [build_types_decorator] is neither imported nor defined in glt.py,
    so the pyccel branch raises [NameError]. *)
Definition backend_metadata (backend : option Backend) (name : string)
    (func_args : list Obj) : result (Decorator * option (string * list Obj)) :=
  match backend with
  | None => Raise TypeError
  | Some b =>
      match b !! "name" with
      | None => Raise KeyError
      | Some n =>
          if decide (n = "pyccel") then Raise NameError
          else if decide (n = "numba") then Ok (JitDecorator, None)
          else if decide (n = "pythran") then Ok (NoDecorator, Some (name, func_args))
          else Ok (NoDecorator, None)
      end
  end.

(** Lines 320-339: the atomic terms and the field atoms of the symbol *)
Definition atomic_expr_field (expr1 : SymbolExpr) : list Expr :=
  filter (λ a, is_field a = true) (_atomic atoms_types expr1).

Definition field_atoms (expr1 : SymbolExpr) : list ScalarField :=
  set_iter (symbol_atoms_ScalarField expr1).

(** Lines 342-363: one [EvalArrayField] per group of fields sharing a space *)
Definition create_eval_fields (expr1 : SymbolExpr) (mapping : option Mapping)
    (backend : option Backend) : result (list EvalArrayField) :=
  if decide (atomic_expr_field expr1 = []) then Ok []
  else build_eval_fields (groupby field_space (sorted field_space (field_atoms expr1)))
         (atomic_expr_field expr1) mapping backend None.

(** Lines 384-398: the mapping sub-kernel *)
Definition create_eval_mapping (spaces : FemSpace * FemSpace) (mapping : option Mapping)
    (nderiv : nat) (is_rational_mapping : option bool) (backend : option Backend)
    : option EvalArrayMapping :=
  (λ m, {| em_space := spaces.1; em_mapping := m; em_nderiv := nderiv;
           em_is_rational_mapping := is_rational_mapping;
           em_backend := backend |}) <$> mapping.

(** Lines 278-287: [basis] and [spans] are bound only when the form has
    fields or a mapping is given. *)
Definition grid_tables (expr : GltExpr) (mapping : option Mapping)
    : option (list Obj * list Obj) :=
  let dim := ldim expr in
  if decide (sorted field_name (form_fields (form expr)) = [] ∧ mapping = None)
  then None
  else Some (indexed_variables_range "spans" dim "int" 1,
             indexed_variables_range "basis" dim "real" 4).

(** Lines 295-300 and 567-573: the output matrices, row by row *)
Definition global_mats_of (n_rows n_cols : nat) : list Obj :=
  (λ ij : nat * nat, IndexedBase ("symbol_" +:+ pretty ij.1 +:+ pretty ij.2))
    <$> cell_indices n_rows n_cols.

(** Lines 576-593: the dtype of every output matrix *)
Definition global_mats_types_of (expr1 : SymbolExpr) (n_rows n_cols : nat) : list string :=
  if is_matrix expr1
  then (λ ij : nat * nat, dtype_of (cell expr1 ij.1 ij.2)) <$> cell_indices n_rows n_cols
  else [dtype_of (cell expr1 0 0)].

(** Line 402: [fields = symbols(fields_str)] *)
Definition fields_symbols (expr1 : SymbolExpr) : list Obj :=
  Symbol <$> sorted id (print_expression false true <$> atomic_expr_field expr1).

(** Lines 405-406 *)
Definition fields_coeffs_of (expr1 : SymbolExpr) (dim : nat) : list Obj :=
  indexed_variables ((λ f, "coeff_" +:+ field_name f) <$> field_atoms expr1) "real" dim.

(** Lines 435-436 *)
Definition local_mapping_coeffs (eval_mapping : option EvalArrayMapping) (dim : nat)
    : list Obj :=
  from_option
    (λ em, indexed_variables (print_object <$> mapping_coeffs_of em) "real" dim)
    [] eval_mapping.

(** Lines 598-603: the positional arguments of the generated function *)
Definition function_args (expr : GltExpr) (expr1 : SymbolExpr) (mapping : option Mapping)
    (eval_mapping : option EvalArrayMapping) (n_rows n_cols : nat)
    : result (list Obj) :=
  let dim := ldim expr in
  let degrees := variables_range "p" dim "int" in
  args ←
    (if decide (fields_symbols expr1 = [] ∧ mapping = None) then Ok []
     else match grid_tables expr mapping with
          | None => Raise UnboundLocalError
          | Some (spans, basis) => Ok (degrees ++ spans ++ basis)
          end);
  let args := space_variables expr ++ args ++ fields_coeffs_of expr1 dim
                ++ local_mapping_coeffs eval_mapping dim
                ++ global_mats_of n_rows n_cols in
  Ok (kernel_build_arguments (indexed_variables_range "arr_t" dim "real" 1)
        (constants expr) args).

(** [GltKernel.__new__] with [_initialize] *)
Definition GltKernel_new (expr : GltExpr) (spaces : FemSpace * FemSpace)
    (name : option string) (mapping : option Mapping)
    (is_rational_mapping : option bool) (backend : option Backend)
    : result GltKernel :=
  let tag := random_string 8 in
  let name := default_name "kernel" tag name in
  let dim := ldim expr in
  let expr0 := reduced_symbol expr spaces mapping in
  let n_rows := (shape expr0).1 in
  let n_cols := (shape expr0).2 in
  let coordinates := space_variables expr in
  let with_coordinates := bool_decide (0 < length coordinates) in
  let expr1 := renamed_symbol expr spaces mapping in
  eval_fields ← create_eval_fields expr1 mapping backend;
  let nderiv := compute_nderiv expr1 in
  let eval_mapping :=
    create_eval_mapping spaces mapping nderiv is_rational_mapping backend in
  let dependencies :=
    (DepField <$> eval_fields) ++ from_option (λ em, [DepMapping em]) [] eval_mapping in
  (* lines 517-520: the calls to the field sub-kernels read spans and basis *)
  _ ← (match eval_fields, grid_tables expr mapping with
       | _ :: _, None => Raise UnboundLocalError
       | _, _ => Ok ()
       end);
  let imports :=
    (if decide (fields_symbols expr1 = []) then [] else [("zeros", "numpy")]) ++
    (match mapping with Some _ => [("zeros", "numpy")] | None => [] end) ++
    ((λ e, (e, "numpy")) <$> math_atoms_as_str expr1) in
  let basic_args := indexed_variables_range "arr_t" dim "real" 1 in
  func_args ← function_args expr expr1 mapping eval_mapping n_rows n_cols;
  meta ← backend_metadata backend name func_args;
  Ok {| k_tag := tag; k_name := name; k_mapping := mapping;
        k_is_rational_mapping := is_rational_mapping;
        k_expr := expr; k_spaces := spaces; k_backend := backend;
        k_n_rows := n_rows; k_n_cols := n_cols;
        k_coordinates := coordinates; k_with_coordinates := with_coordinates;
        k_eval_fields := eval_fields; k_eval_mapping := eval_mapping;
        k_dependencies := dependencies; k_max_nderiv := nderiv;
        k_basic_args := basic_args;
        k_global_mats := global_mats_of n_rows n_cols;
        k_global_mats_types := global_mats_types_of expr1 n_rows n_cols;
        k_imports := imports;
        k_func := {| kd_name := name; kd_args := func_args;
                     kd_decorators := meta.1; kd_header := meta.2 |} |}.

(** The accessors [mapping_coeffs] and [mapping_values] *)
Definition mapping_coeffs (k : GltKernel) : list Obj :=
  match k_eval_mapping k with
  | None => []
  | Some em => mapping_coeffs_of em
  end.

Definition mapping_values (k : GltKernel) : list Obj :=
  match k_eval_mapping k with
  | None => []
  | Some em => mapping_values_of em
  end.


(** ** The interface: [GltInterface] *)

Record GltInterface := {
  i_tag : string;
  i_name : string;
  i_kernel : GltKernel;
  i_mapping : option Mapping;
  i_is_rational_mapping : option bool;
  i_backend : option Backend;
  i_dependencies : list GltKernel;
  i_basic_args : list Obj;
  i_in_arguments : list Obj;
  i_inout_arguments : list Obj;
  i_imports : list Import;
  i_func : FunctionDef
}.

(** What [GltInterface.__new__] may receive as its first argument *)
Inductive KernelArg :=
| AKernel (k : GltKernel)
| NotAKernel (description : string).

(** The conditional allocation of one output matrix *)
Definition allocation (lengths : list CallArg) (M : Obj) (dtype : string) : Stmt :=
  let if_cond := Is M ENil in
  let _args := lengths ++ [AString ("dtype=" +:+ dtype)] in
  let if_body := [Assign [M] (ECall "zeros" _args)] in
  If if_cond if_body.

(** [GltInterface._initialize], for an interface being built with the given
    kernel and mapping *)
Definition GltInterface_initialize (kernel : GltKernel) (name : string)
    (self_mapping : option Mapping) : list Obj * list Obj * list Obj * FunctionDef :=
  let form := form (k_expr kernel) in
  let global_mats := k_global_mats kernel in
  let global_mats_types := k_global_mats_types kernel in
  let fields := sorted field_name (form_fields form) in
  let dim := form_ldim form in
  let mapping := (λ _, Symbol "mapping") <$> self_mapping in
  let test_space := Symbol "W" in
  let arr_tis := IndexedBase <$> range_names "arr_t" dim in
  let lengths := Symbol <$> range_names "k" dim in
  let degrees := variables_range "p" dim "int" in
  let dependent := bool_decide (¬ (fields = [] ∧ mapping = None)) in
  let basis_values := Symbol "basis_values" in
  let basis := indexed_variables_range "basis_" dim "real" 4 in
  let spans := indexed_variables_range "spans_" dim "int" 1 in
  let basic_args :=
    if dependent then k_basic_args kernel ++ [test_space; basis_values]
    else k_basic_args kernel ++ [test_space] in
  let body := [Assign degrees (EObj (DottedName test_space ["degree"]))] in
  let body :=
    if dependent
    then body ++ [Assign spans (EObj (DottedName basis_values ["spans"]));
                  Assign basis (EObj (DottedName basis_values ["basis"]))]
    else body in
  let body :=
    match mapping with
    | Some m =>
        body ++ imap (λ i coeff,
                        let component := Indexed (DottedName m ["_fields"]) i in
                        Assign [coeff] (EObj (DottedName component ["_coeffs"; "_data"])))
                     (mapping_coeffs kernel)
    | None => body
    end in
  let prelude := (λ la : Obj * Obj, Assign [la.1] (ELen la.2)) <$> zip lengths arr_tis in
  let lengths := if decide (1 < dim) then [ATuple lengths] else AObj <$> lengths in
  let body :=
    body ++ ((λ Md : Obj * string, allocation lengths Md.1 Md.2)
               <$> zip global_mats global_mats_types) in
  let body := prelude ++ body in
  let inout_arguments := global_mats in
  let coordinates := k_coordinates kernel in
  let in_arguments :=
    coordinates ++ constants (k_expr kernel) ++ (FieldObj <$> fields) in
  let mat_data := global_mats in
  let field_data := (λ F, DottedName (FieldObj F) ["_coeffs"; "_data"]) <$> fields in
  let args := if dependent then degrees ++ spans ++ basis else [] in
  let args := coordinates ++ args ++ field_data ++ mapping_coeffs kernel ++ mat_data in
  let args :=
    kernel_build_arguments (k_basic_args kernel) (constants (k_expr kernel)) args in
  let body := body ++ [FunctionCall (kd_name (k_func kernel)) args] in
  let body :=
    match global_mats with
    | [M] => body ++ [Return (EObj M)]
    | _ => body ++ [Return (ETuple global_mats)]
    end in
  let mats := DefaultNil <$> global_mats in
  let mapping := from_option (λ m, [Positional m]) [] mapping in
  let consts := Positional <$> constants (k_expr kernel) in
  let coords := Positional <$> coordinates in
  let fieldps := Positional <$> (FieldObj <$> fields) in
  let args :=
    if decide (constants (k_expr kernel) = []) then
      if decide (coordinates = []) then mapping ++ fieldps ++ mats
      else mapping ++ coords ++ fieldps ++ mats
    else
      if decide (coordinates = []) then mapping ++ consts ++ fieldps ++ mats
      else mapping ++ consts ++ coords ++ fieldps ++ mats in
  let func_args := (Positional <$> basic_args) ++ args in
  (basic_args, in_arguments, inout_arguments,
   {| fd_name := name; fd_args := func_args; fd_body := body;
      fd_decorators := NoDecorator; fd_header := None |}).

(** [GltInterface.__new__] *)
Definition GltInterface_new (kernel : KernelArg) (name : option string)
    (mapping : option Mapping) (is_rational_mapping : option bool)
    (backend : option Backend) : result GltInterface :=
  match kernel with
  | NotAKernel _ => Raise TypeError
  | AKernel kernel =>
      let name := default_name "interface" (k_tag kernel) name in
      let '(basic_args, in_arguments, inout_arguments, func) :=
        GltInterface_initialize kernel name mapping in
      Ok {| i_tag := k_tag kernel; i_name := name; i_kernel := kernel;
            i_mapping := mapping; i_is_rational_mapping := is_rational_mapping;
            i_backend := backend; i_dependencies := [kernel];
            i_basic_args := basic_args;
            i_in_arguments := in_arguments; i_inout_arguments := inout_arguments;
            i_imports := [("zeros", "numpy")];
            i_func := func |}
  end.

(** ** The facade: [DiscreteGltExpr] *)

(** [DiscreteGltExpr._create_ast]; [default_backend] stands for
    [SPL_BACKEND_PYTHON] of spl/api/settings.py, used when no backend is
    given. *)
Definition _create_ast (default_backend : Backend) (spaces : FemSpace * FemSpace)
    (expr : GltExpr) (tag : string) (mapping : option Mapping)
    (backend : option Backend) : result (GltKernel * GltInterface) :=
  let backend := Some (default default_backend backend) in
  kernel ← GltKernel_new expr spaces (Some ("kernel_" +:+ tag)) mapping None backend;
  interface ← GltInterface_new (AKernel kernel) (Some ("interface_" +:+ tag))
                 mapping None backend;
  Ok (kernel, interface).

End Generators.

Section Facade.
Context {V : Type}.

(** The loop over the mandatory names: a missing key raises [KeyError]. *)
Fixpoint take_mandatory (keys : list string) (kwargs _kwargs : gmap string V)
    : result (gmap string V) :=
  match keys with
  | [] => Ok _kwargs
  | key :: keys' =>
      match kwargs !! key with
      | Some v => take_mandatory keys' kwargs (<[key := v]> _kwargs)
      | None => Raise KeyError
      end
  end.

(** The loop over the optional names: a missing key is passed over. *)
Fixpoint take_optional (keys : list string) (kwargs _kwargs : gmap string V)
    : gmap string V :=
  match keys with
  | [] => _kwargs
  | key :: keys' =>
      match kwargs !! key with
      | Some v => take_optional keys' kwargs (<[key := v]> _kwargs)
      | None => take_optional keys' kwargs _kwargs
      end
  end.

(** [DiscreteGltExpr._check_arguments] *)
Definition _check_arguments (interface : GltInterface) (kwargs : gmap string V)
    : result (gmap string V) :=
  _kwargs ← take_mandatory (str <$> i_in_arguments interface) kwargs ∅;
  Ok (take_optional (str <$> i_inout_arguments interface) kwargs _kwargs).

(** Positional arguments of the call to the compiled interface *)
Inductive PosArg :=
| Given (v : V)
| SpaceArg (Vh : FemSpace)
| CollocationBasisValues (grid : V * V) (Vh : FemSpace) (nderiv : nat)
| MappingArg (m : Mapping).

Record Invocation := {
  inv_func : string;
  inv_args : list PosArg;
  inv_kwargs : gmap string V
}.

Record DiscreteGltExpr := {
  d_expr : GltExpr;
  d_mapping : option Mapping;
  d_spaces : FemSpace * FemSpace;
  d_interface : GltInterface
}.

(** [DiscreteGltExpr.evaluate]: the call it makes to the compiled interface,
    or the exception it raises before. *)
Definition evaluate (self : DiscreteGltExpr) (args : list V) (kwargs : gmap string V)
    : result Invocation :=
  kwargs ← _check_arguments (d_interface self) kwargs;
  match args with
  | [t1; t2] =>
      let Vh := (d_spaces self).2 in
      let args := (Given <$> args) ++ [SpaceArg Vh] in
      let args :=
        if decide (form_fields (form (d_expr self)) = [] ∧ d_mapping self = None)
        then args
        else args ++ [CollocationBasisValues (t1, t2) Vh 1] in
      let args :=
        match d_mapping self with
        | Some m => args ++ [MappingArg m]
        | None => args
        end in
      Ok {| inv_func := i_name (d_interface self); inv_args := args;
            inv_kwargs := kwargs |}
  | _ => Raise ValueError
  end.

End Facade.

(** ** Reading the generated code *)

(** The values an output-matrix variable may hold when the interface runs. *)
Inductive Value :=
| VNil
| VZeros (args : list CallArg)
| VBuffer (id : nat).

(** The statements of a conditional allocation, run on a store: [M is None]
    tests the variable, [M = zeros(...)] binds a fresh zero-filled array.
    Other statements are outside this fragment. *)
Fixpoint exec (st : Stmt) (σ : gmap string Value) : option (gmap string Value) :=
  match st with
  | Assign [M] (ECall "zeros" args) => Some (<[str M := VZeros args]> σ)
  | If (Is M ENil) body =>
      match σ !! str M with
      | Some VNil =>
          (fix exec_body (l : list Stmt) (σ : gmap string Value) :=
             match l with
             | [] => Some σ
             | s :: l' =>
                 match exec s σ with
                 | Some σ' => exec_body l' σ'
                 | None => None
                 end
             end) body σ
      | Some _ => Some σ
      | None => None
      end
  | _ => None
  end.

(** The arguments of the first top-level call to [f] in a body *)
Fixpoint find_call (f : string) (body : list Stmt) : option (list Obj) :=
  match body with
  | [] => None
  | FunctionCall g args :: body' =>
      if decide (g = f) then Some args else find_call f body'
  | _ :: body' => find_call f body'
  end.

(** The arguments with which an interface calls its kernel *)
Definition kernel_call_args (itf : GltInterface) : option (list Obj) :=
  find_call (kd_name (k_func (i_kernel itf))) (fd_body (i_func itf)).

(** A statement is a call *)
Definition is_call (st : Stmt) : bool :=
  match st with FunctionCall _ _ => true | _ => false end.

(** The arguments the interface passes to its kernel *)
Definition interface_call_arguments {PR : Providers} (k : GltKernel) (imapping : option Mapping) : list Obj :=
  let dim := form_ldim (form (k_expr k)) in
  let fields := sorted field_name (form_fields (form (k_expr k))) in
  kernel_build_arguments (k_basic_args k) (constants (k_expr k))
    (k_coordinates k
     ++ (if decide (fields = [] ∧ imapping = None) then []
         else variables_range "p" dim "int"
              ++ indexed_variables_range "spans_" dim "int" 1
              ++ indexed_variables_range "basis_" dim "real" 4)
     ++ ((λ F, DottedName (FieldObj F) ["_coeffs"; "_data"]) <$> fields)
     ++ mapping_coeffs k ++ k_global_mats k).

(** [supplies a p]: the call argument [a] is the datum of the declared
    parameter [p].  The interface names the grid tables [spans_i], [basis_i]
    where the kernel has [spansi], [basisi]; it passes the coefficient
    storage of field [F] for [coeff_F], and the mapping sub-kernel's
    coefficient for the kernel's variable printed from it. *)
Inductive supplies {PR : Providers} : Obj → Obj → Prop :=
| supplies_same o : supplies o o
| supplies_spans (i : nat) :
    supplies (IndexedVariable ("spans_" +:+ pretty i) "int" 1)
             (IndexedVariable ("spans" +:+ pretty i) "int" 1)
| supplies_basis (i : nat) :
    supplies (IndexedVariable ("basis_" +:+ pretty i) "real" 4)
             (IndexedVariable ("basis" +:+ pretty i) "real" 4)
| supplies_field f rank :
    supplies (DottedName (FieldObj f) ["_coeffs"; "_data"])
             (IndexedVariable ("coeff_" +:+ field_name f) "real" rank)
| supplies_mapping_coeff c rank :
    supplies c (IndexedVariable (print_object c) "real" rank).

(** ** The statements of the specification, in its own words *)

(** The flat signature [(mapping?, constants..., coordinates...,
    field_objects..., output_buffers_or_none...)] *)
Definition spec_signature (k : GltKernel) (mapping : option Mapping) : list Param :=
  from_option (λ _, [Positional (Symbol "mapping")]) [] mapping
  ++ (Positional <$> constants (k_expr k))
  ++ (Positional <$> k_coordinates k)
  ++ (Positional <$> (FieldObj <$> sorted field_name (form_fields (form (k_expr k)))))
  ++ (DefaultNil <$> k_global_mats k).


(** The grid's shape: the lengths [k1 .. kd] of the coordinate arrays *)
Definition grid_shape (dim : nat) : list CallArg :=
  if decide (1 < dim) then [ATuple (Symbol <$> range_names "k" dim)]
  else AObj <$> (Symbol <$> range_names "k" dim).


(** The symbol has scalar-field atoms: [expr.atoms(ScalarField)] is not
    empty.  Vector-field atoms are not counted. *)
Definition scalar_field_dependent (s : SymbolExpr) : Prop :=
  symbol_atoms_ScalarField s ≠ [].



(** ** Further notions used by the properties *)

(** The expressions a group of field names selects *)
Definition group_expressions (s : SymbolExpr) (group : list ScalarField) : list Expr :=
  filter (λ e, intersects (field_name <$> atoms_ScalarField e) (field_name <$> group) = true)
    (atomic_expr_field s).


(** ** Concrete inputs *)

Module Examples.

(** An engine whose reduction of every form is the given symbol; fields are
    printed by name. *)
Definition engine_of (s : SymbolExpr) : SymbolicEngine :=
  {| gelatize := λ _ _ _ _, s;
     expand := id;
     evalf := id;
     print_expression := λ _ _ e,
       match e with Term (TScalarField f) => field_name f | _ => "expr" end;
     math_atoms_as_str := λ _, [] |}.

(** A provider whose mapping sub-kernels expose one coefficient array per
    axis of the space. *)
Definition providers : Providers :=
  {| elements := λ _, [];
     mapping_coeffs_of := λ em,
       indexed_variables_range "coeff_x" (length (degree (em_space em))) "real" 1;
     mapping_values_of := λ em,
       indexed_variables_range "x_values" (length (degree (em_space em))) "real" 1;
     print_object := str |}.

(** Two interpreter runs: sets iterate in insertion order, or in the reverse
    order; the tags drawn differ. *)
Definition insertion_order : Interpreter :=
  {| set_iter := id;
     set_iter_perm := λ l, reflexivity l;
     random_string := λ _, "aaaaaaaa" |}.

Definition reverse_order : Interpreter :=
  {| set_iter := reverse;
     set_iter_perm := reverse_Permutation;
     random_string := λ _, "zzzzzzzz" |}.

Definition python : Backend := {[ "name" := "python" ]}.

Definition V1 : FemSpace := {| space_name := "V"; ncells := [8]; degree := [2] |}.
Definition V2 : FemSpace := {| space_name := "V"; ncells := [8; 8]; degree := [2; 2] |}.

Definition F : ScalarField := {| field_name := "F"; field_space := "V" |}.
Definition G : ScalarField := {| field_name := "G"; field_space := "V" |}.

Definition M : Mapping := {| mapping_name := "M" |}.

(** The 2D Poisson form of the tests: no field, no mapping. *)
Definition poisson : GltExpr :=
  {| form := {| form_fields := []; form_ldim := 2 |};
     space_variables := []; constants := [] |}.
Definition poisson_symbol : SymbolExpr :=
  Scalar (Add (Mul (Sym "tx") (Sym "tx")) (Mul (Sym "ty") (Sym "ty"))).


(** A 1D form with the two fields [F] and [G] of one space. *)
Definition two_fields : GltExpr :=
  {| form := {| form_fields := [F; G]; form_ldim := 1 |};
     space_variables := []; constants := [] |}.
Definition two_fields_symbol : SymbolExpr :=
  Scalar (Add (Term (TScalarField F)) (Mul (Term (TScalarField G)) (Sym "tx"))).

(** A 1D form on a mapped domain whose symbol carries no derivative. *)
Definition mapped : GltExpr :=
  {| form := {| form_fields := []; form_ldim := 1 |};
     space_variables := [Symbol "x"]; constants := [] |}.
Definition mapped_symbol : SymbolExpr :=
  Scalar (Mul (SymbolicDeterminant "M") (Sym "tx")).

(** A 2x2 matrix-valued symbol with one complex cell and a field with a
    second derivative. *)
Definition system : GltExpr :=
  {| form := {| form_fields := [F]; form_ldim := 2 |};
     space_variables := [Symbol "x"; Symbol "y"]; constants := [Constant "c"] |}.
Definition system_symbol : SymbolExpr :=
  DenseMatrix true 2 2 (λ i j,
    match i, j with
    | 0, 0 => Sym "tx"
    | 0, 1 => Mul ImaginaryUnit (Sym "ty")
    | 1, 0 => Term (TPartial false AxisX (TPartial false AxisX (TScalarField F)))
    | _, _ => Number 1
    end).


End Examples.

(** Inversion of a successful monadic computation *)
Ltac result_inv H :=
  repeat match type of H with
  | mbind _ ?m = Ok _ =>
      let E := fresh "E" in destruct m eqn:E; simpl in H; [|discriminate H]
  end.

(** ** More concrete inputs *)

Module MoreExamples.

(** A 1D form that lists no field although its symbol holds [F]. *)
Definition unlisted_field : GltExpr :=
  {| form := {| form_fields := []; form_ldim := 1 |};
     space_variables := []; constants := [] |}.
Definition unlisted_field_symbol : SymbolExpr :=
  Scalar (Mul (Term (TScalarField Examples.F)) (Sym "tx")).

(** A 12x12 matrix-valued symbol. *)
Definition wide : GltExpr :=
  {| form := {| form_fields := []; form_ldim := 1 |};
     space_variables := []; constants := [] |}.
Definition wide_symbol : SymbolExpr :=
  DenseMatrix true 12 12 (λ i j, if decide (i = j) then Sym "tx" else Number 0).

Definition pythran : Backend := {[ "name" := "pythran" ]}.
Definition pyccel : Backend := {[ "name" := "pyccel" ]}.
Definition nameless : Backend := ∅.

End MoreExamples.

(** * Properties *)

(** ** Lists and sets *)

Lemma elem_of_unique_go {A} `{EqDecision A} (seen l : list A) x :
  x ∈ unique_go seen l ↔ x ∈ l ∧ x ∉ seen.
Proof.
  revert seen. induction l as [|y l IH]; intros seen; simpl.
  - rewrite elem_of_nil. naive_solver.
  - destruct (decide (y ∈ seen)) as [Hy|Hy].
    + rewrite IH, elem_of_cons. naive_solver.
    + rewrite !elem_of_cons, IH, elem_of_cons.
      destruct (decide (x = y)); naive_solver.
Qed.

Lemma elem_of_unique {A} `{EqDecision A} (l : list A) x : x ∈ unique l ↔ x ∈ l.
Proof. unfold unique. rewrite elem_of_unique_go, elem_of_nil. naive_solver. Qed.

Lemma unique_nil {A} `{EqDecision A} (l : list A) : unique l = [] ↔ l = [].
Proof.
  split; [|intros ->; reflexivity].
  destruct l as [|x l]; [done|]. intros Hu.
  assert (x ∈ unique (x :: l)) as Hx by (apply elem_of_unique; left).
  rewrite Hu in Hx. by apply elem_of_nil in Hx.
Qed.

Lemma length_cell_indices r c : length (cell_indices r c) = r * c.
Proof.
  unfold cell_indices.
  assert (∀ a, length (seq a r ≫= λ i, (λ j, (i, j)) <$> seq 0 c) = r * c) as Hg.
  { induction r as [|r IH]; intros a; simpl; [done|].
    rewrite length_app, length_fmap, length_seq, IH. done. }
  apply Hg.
Qed.

Lemma lookup_cell_indices r c i j :
  i < r → j < c → cell_indices r c !! (i * c + j) = Some (i, j).
Proof.
  unfold cell_indices.
  assert (∀ a, i < r → j < c →
    (seq a r ≫= λ i, (λ j, (i, j)) <$> seq 0 c) !! (i * c + j) = Some (a + i, j)) as Hg.
  { revert i. induction r as [|r IH]; intros i a Hi Hj; [lia|]. simpl.
    destruct i as [|i]; simpl.
    - rewrite lookup_app_l by (rewrite length_fmap, length_seq; done).
      rewrite list_lookup_fmap, lookup_seq_lt by done. simpl. f_equal. f_equal. lia.
    - rewrite lookup_app_r by (rewrite length_fmap, length_seq; lia).
      rewrite length_fmap, length_seq.
      replace (c + i * c + j - c) with (i * c + j) by lia.
      rewrite IH by lia. f_equal. f_equal. lia. }
  intros Hi Hj. by rewrite Hg.
Qed.

(** ** Renaming the coordinates leaves the inspected atoms alone *)

Lemma shape_subs_all olds news s : shape (subs_all olds news s) = shape s.
Proof.
  unfold subs_all. revert s. induction (zip olds news) as [|on l IH]; intros s; [done|].
  simpl. rewrite IH. by destruct s.
Qed.

Lemma is_matrix_subs_all olds news s : is_matrix (subs_all olds news s) = is_matrix s.
Proof.
  unfold subs_all. revert s. induction (zip olds news) as [|on l IH]; intros s; [done|].
  simpl. rewrite IH. by destruct s.
Qed.

Lemma imaginary_subs old new e :
  ImaginaryUnit ∈ preorder_traversal (subs old new e) ↔
  ImaginaryUnit ∈ preorder_traversal e.
Proof.
  induction e; simpl; try done.
  - case_decide; simpl; rewrite !list_elem_of_singleton; naive_solver.
  - rewrite !elem_of_cons, !elem_of_app. naive_solver.
  - rewrite !elem_of_cons, !elem_of_app. naive_solver.
  - rewrite !elem_of_cons, !elem_of_app. naive_solver.
  - rewrite !elem_of_cons. naive_solver.
Qed.

Lemma atoms_ImaginaryUnit_nil e :
  atoms_ImaginaryUnit e = [] ↔ ImaginaryUnit ∉ preorder_traversal e.
Proof.
  unfold atoms_ImaginaryUnit, atoms. rewrite unique_nil. split.
  - intros Hf Hin.
    assert (ImaginaryUnit ∈ filter (λ n, isinstance_any [CImaginaryUnit] n = true)
              (preorder_traversal e)) as Hx by (by apply list_elem_of_filter).
    rewrite Hf in Hx. by apply elem_of_nil in Hx.
  - intros Hnot. destruct (filter _ _) as [|x l] eqn:Hf; [done|].
    assert (x ∈ filter (λ n, isinstance_any [CImaginaryUnit] n = true)
              (preorder_traversal e)) as Hx by (rewrite Hf; left).
    apply list_elem_of_filter in Hx as [Hi Hx].
    destruct x; try discriminate Hi. done.
    destruct t; try discriminate Hi. destruct logical; discriminate Hi.
Qed.

Lemma dtype_of_spec e :
  dtype_of e = if decide (ImaginaryUnit ∈ preorder_traversal e) then "complex" else "float".
Proof.
  unfold dtype_of. destruct (decide (atoms_ImaginaryUnit e = [])) as [Hn|Hn];
    rewrite atoms_ImaginaryUnit_nil in Hn; case_decide; done.
Qed.

Lemma dtype_of_subs old new e : dtype_of (subs old new e) = dtype_of e.
Proof.
  rewrite !dtype_of_spec.
  destruct (decide (_ ∈ preorder_traversal (subs _ _ _))) as [Hs|Hs];
    rewrite imaginary_subs in Hs; case_decide; done.
Qed.

Lemma cell_symbol_subs old new s i j :
  cell (symbol_subs old new s) i j = subs old new (cell s i j).
Proof. by destruct s. Qed.

Lemma dtype_of_cell_subs_all olds news s i j :
  dtype_of (cell (subs_all olds news s) i j) = dtype_of (cell s i j).
Proof.
  unfold subs_all. revert s. induction (zip olds news) as [|on l IH]; intros s; [done|].
  simpl. by rewrite IH, cell_symbol_subs, dtype_of_subs.
Qed.


Section KernelProperties.
Context {SE : SymbolicEngine} {PR : Providers} {PY : Interpreter}.

Lemma shape_renamed_symbol expr spaces mapping :
  shape (renamed_symbol expr spaces mapping) = shape (reduced_symbol expr spaces mapping).
Proof. unfold renamed_symbol. by rewrite !shape_subs_all. Qed.

Lemma is_matrix_renamed_symbol expr spaces mapping :
  is_matrix (renamed_symbol expr spaces mapping)
  = is_matrix (reduced_symbol expr spaces mapping).
Proof. unfold renamed_symbol. by rewrite !is_matrix_subs_all. Qed.

Lemma dtype_of_cell_renamed expr spaces mapping i j :
  dtype_of (cell (renamed_symbol expr spaces mapping) i j)
  = dtype_of (cell (reduced_symbol expr spaces mapping) i j).
Proof. unfold renamed_symbol. by rewrite !dtype_of_cell_subs_all. Qed.

(** What a successful build records *)
Lemma GltKernel_new_fields expr spaces name mapping irm backend k :
  GltKernel_new expr spaces name mapping irm backend = Ok k →
  let s := reduced_symbol expr spaces mapping in
  let s1 := renamed_symbol expr spaces mapping in
  k_expr k = expr ∧ k_mapping k = mapping ∧
  k_coordinates k = space_variables expr ∧
  k_basic_args k = indexed_variables_range "arr_t" (ldim expr) "real" 1 ∧
  k_global_mats k = global_mats_of (shape s).1 (shape s).2 ∧
  k_global_mats_types k = global_mats_types_of s1 (shape s).1 (shape s).2 ∧
  k_eval_mapping k = create_eval_mapping spaces mapping (compute_nderiv s1) irm backend ∧
  create_eval_fields s1 mapping backend = Ok (k_eval_fields k) ∧
  k_dependencies k =
    (DepField <$> k_eval_fields k)
    ++ from_option (λ em, [DepMapping em]) [] (k_eval_mapping k) ∧
  function_args expr s1 mapping (k_eval_mapping k) (shape s).1 (shape s).2
    = Ok (kd_args (k_func k)) ∧
  (k_eval_fields k ≠ [] → grid_tables expr mapping ≠ None).
Proof.
  intros Hk. unfold GltKernel_new in Hk. result_inv Hk.
  injection Hk as <-. simpl. repeat split; try done.
  intros Hne Hg. rewrite Hg in E0. destruct a; done.
Qed.

(** C10. A kernel built without a mapping has no mapping sub-kernel, and its
    accessors [mapping_coeffs] and [mapping_values] both return the empty
    tuple. *)
Theorem mapping_accessors_empty_without_mapping expr spaces name irm backend k :
  GltKernel_new expr spaces name None irm backend = Ok k →
  k_eval_mapping k = None ∧ mapping_coeffs k = [] ∧ mapping_values k = [].
Proof.
  intros Hk. apply GltKernel_new_fields in Hk as (_&_&_&_&_&_&Hem&_).
  unfold mapping_coeffs, mapping_values. by rewrite Hem.
Qed.

(** C3. The dtype recorded for output cell (i,j) is ["complex"] exactly when
    the reduced symbol's cell (i,j) contains the imaginary unit, and
    ["float"] otherwise; a scalar symbol is its own cell (0,0). *)
Theorem cell_dtype_follows_imaginary_unit expr spaces name mapping irm backend k i j :
  GltKernel_new expr spaces name mapping irm backend = Ok k →
  let s := reduced_symbol expr spaces mapping in
  i < (shape s).1 → j < (shape s).2 →
  k_global_mats_types k !! (i * (shape s).2 + j) =
    Some (if decide (ImaginaryUnit ∈ preorder_traversal (cell s i j))
          then "complex" else "float").
Proof.
  intros Hk. cbv zeta.
  apply GltKernel_new_fields in Hk as (_&_&_&_&_&Ht&_). rewrite Ht.
  unfold global_mats_types_of. rewrite is_matrix_renamed_symbol.
  destruct (reduced_symbol expr spaces mapping) as [e|im r c entry] eqn:Hs;
    simpl; intros Hi Hj.
  - assert (i = 0) as -> by lia. assert (j = 0) as -> by lia. simpl.
    rewrite dtype_of_cell_renamed, Hs. simpl. by rewrite dtype_of_spec.
  - rewrite list_lookup_fmap, lookup_cell_indices by done. simpl.
    rewrite dtype_of_cell_renamed, Hs. simpl. by rewrite dtype_of_spec.
Qed.


Lemma GltInterface_new_fields k iname imapping iirm ibackend itf :
  GltInterface_new (AKernel k) iname imapping iirm ibackend = Ok itf →
  i_kernel itf = k ∧ i_mapping itf = imapping ∧
  (i_basic_args itf, i_in_arguments itf, i_inout_arguments itf, i_func itf)
  = GltInterface_initialize k (default_name "interface" (k_tag k) iname) imapping.
Proof.
  unfold GltInterface_new.
  destruct (GltInterface_initialize _ _ _) as [[[ba ia] ioa] f].
  intros [= <-]. done.
Qed.

Lemma length_global_mats_types s1 r c :
  shape s1 = (r, c) → length (global_mats_types_of s1 r c) = length (global_mats_of r c).
Proof.
  unfold global_mats_types_of, global_mats_of. destruct s1; simpl.
  - by intros [= <- <-].
  - intros _. by rewrite !length_fmap.
Qed.

(** C4. The output matrices of a built kernel are one per cell of a
    matrix-valued reduced symbol, in row-major order, and exactly one for a
    scalar symbol; the interface ends by returning the single matrix when
    there is exactly one and the whole tuple otherwise. *)
Theorem output_matrices_and_return expr spaces name mapping irm backend k
    iname imapping iirm ibackend itf :
  GltKernel_new expr spaces name mapping irm backend = Ok k →
  GltInterface_new (AKernel k) iname imapping iirm ibackend = Ok itf →
  (∀ im r c entry, reduced_symbol expr spaces mapping = DenseMatrix im r c entry →
     length (k_global_mats k) = r * c ∧
     ∀ i j, i < r → j < c →
       k_global_mats k !! (i * c + j)
       = Some (IndexedBase ("symbol_" +:+ pretty i +:+ pretty j))) ∧
  (∀ e, reduced_symbol expr spaces mapping = Scalar e →
     k_global_mats k = [IndexedBase "symbol_00"]) ∧
  (∀ M, k_global_mats k = [M] →
     last (fd_body (i_func itf)) = Some (Return (EObj M))) ∧
  (length (k_global_mats k) ≠ 1 →
     last (fd_body (i_func itf)) = Some (Return (ETuple (k_global_mats k)))).
Proof.
  intros Hk Hi.
  apply GltKernel_new_fields in Hk as (_&_&_&_&Hm&_).
  apply GltInterface_new_fields in Hi as (_&_&Hi).
  split; [|split; [|split]].
  - intros im r c entry Hs. rewrite Hm, Hs. unfold global_mats_of. simpl. split.
    + by rewrite length_fmap, length_cell_indices.
    + intros i j Hlt Hlt'. by rewrite list_lookup_fmap, lookup_cell_indices.
  - intros e He. rewrite Hm, He. reflexivity.
  - intros M HM. unfold GltInterface_initialize in Hi. rewrite HM in Hi.
    injection Hi as _ _ _ ->. simpl. by rewrite last_snoc.
  - intros Hlen. unfold GltInterface_initialize in Hi.
    injection Hi as _ _ _ ->. simpl.
    destruct (k_global_mats k) as [|M [|M' l]]; simpl in *;
      try (by rewrite last_snoc).
Qed.

Lemma elem_of_zip_lookup {A B} (l1 : list A) (l2 : list B) n a b :
  l1 !! n = Some a → l2 !! n = Some b → (a, b) ∈ zip l1 l2.
Proof.
  intros Ha Hb. apply list_elem_of_lookup. exists n.
  by rewrite lookup_zip_with, Ha, Hb.
Qed.

(** C5. For every output matrix the interface body holds a conditional
    allocation: run on a store where the matrix is [None] it binds the matrix
    to a zero-filled array of the grid's shape and of the cell's recorded
    dtype; run on a store where the caller supplied a buffer it changes
    nothing. *)
Theorem conditional_allocation_of_outputs expr spaces name mapping irm backend k
    iname imapping iirm ibackend itf :
  GltKernel_new expr spaces name mapping irm backend = Ok k →
  GltInterface_new (AKernel k) iname imapping iirm ibackend = Ok itf →
  ∀ n M, k_global_mats k !! n = Some M →
    ∃ dtype, k_global_mats_types k !! n = Some dtype ∧
      let stmt := allocation (grid_shape (ldim expr)) M dtype in
      stmt ∈ fd_body (i_func itf) ∧
      (∀ σ, σ !! str M = Some VNil →
         exec stmt σ
         = Some (<[str M := VZeros (grid_shape (ldim expr)
                                      ++ [AString ("dtype=" +:+ dtype)])]> σ)) ∧
      (∀ σ b, σ !! str M = Some b → b ≠ VNil → exec stmt σ = Some σ).
Proof.
  intros Hk Hi n M HM.
  apply GltKernel_new_fields in Hk as (He&_&_&_&Hm&Ht&_).
  apply GltInterface_new_fields in Hi as (_&_&Hi).
  assert (length (k_global_mats_types k) = length (k_global_mats k)) as Hlen.
  { rewrite Hm, Ht. apply length_global_mats_types.
    rewrite shape_renamed_symbol. by destruct (shape _). }
  destruct (lookup_lt_is_Some_2 (k_global_mats_types k) n) as [dtype Hd].
  { rewrite Hlen. by eapply lookup_lt_Some. }
  exists dtype. split; [done|]. cbv zeta. split; [|split].
  - unfold GltInterface_initialize in Hi. injection Hi as _ _ _ ->.
    subst expr. unfold grid_shape, ldim. simpl.
    match goal with
    | |- context [?f <$> zip (k_global_mats k) (k_global_mats_types k)] =>
        set (allocs := f <$> zip (k_global_mats k) (k_global_mats_types k))
    end.
    assert (allocation
              (if decide (1 < form_ldim (form (k_expr k)))
               then [ATuple (Symbol <$> range_names "k" (form_ldim (form (k_expr k))))]
               else AObj <$> (Symbol <$> range_names "k" (form_ldim (form (k_expr k)))))
              M dtype ∈ allocs) as Hin.
    { apply list_elem_of_fmap. exists (M, dtype). split; [done|].
      by eapply elem_of_zip_lookup. }
    clearbody allocs.
    destruct (k_global_mats k) as [|M0 [|M1 l]];
      rewrite !elem_of_app; eauto 10.
  - intros σ Hσ. unfold allocation. simpl. rewrite Hσ. reflexivity.
  - intros σ b Hσ Hb. unfold allocation. simpl. rewrite Hσ. by destruct b.
Qed.

Lemma length_insert_by {A} (key : A → string) x l :
  length (insert_by key x l) = S (length l).
Proof. induction l as [|y l IH]; simpl; [done|]. case_match; simpl; by rewrite ?IH. Qed.

Lemma length_sorted {A} (key : A → string) l : length (sorted key l) = length l.
Proof.
  induction l as [|x l IH]; simpl; [done|]. by rewrite length_insert_by, IH.
Qed.

Lemma sorted_nil {A} (key : A → string) l : sorted key l = [] ↔ l = [].
Proof.
  split; [|by intros ->]. intros Hs.
  apply (f_equal length) in Hs. rewrite length_sorted in Hs. by destruct l.
Qed.

(** C6 (as the code has it). The signature of the interface is the basic
    prefix -- the grid arrays [arr_t1 .. arr_td], the test space [W] and,
    when the form has fields or a mapping is given, [basis_values] --
    followed by the flat list (mapping if present, constants, coordinates,
    field objects, output matrices defaulting to [None]). *)
Theorem interface_signature_with_basic_prefix expr spaces name mapping irm backend k
    iname imapping iirm ibackend itf :
  GltKernel_new expr spaces name mapping irm backend = Ok k →
  GltInterface_new (AKernel k) iname imapping iirm ibackend = Ok itf →
  fd_args (i_func itf) =
    (Positional <$>
       (indexed_variables_range "arr_t" (ldim expr) "real" 1
        ++ [Symbol "W"]
        ++ if decide (form_fields (form expr) = [] ∧ imapping = None)
           then [] else [Symbol "basis_values"]))
    ++ spec_signature k imapping.
Proof.
  intros Hk Hi.
  apply GltKernel_new_fields in Hk as (He&_&Hc&Hb&_).
  apply GltInterface_new_fields in Hi as (_&_&Hi).
  unfold GltInterface_initialize in Hi. injection Hi as _ _ _ ->.
  unfold spec_signature. simpl. rewrite Hb, He, Hc.
  f_equal.
  - f_equal. case_bool_decide as Hd; case_decide as Hd'.
    + destruct Hd. destruct Hd' as [-> ->]. done.
    + done.
    + done.
    + destruct Hd as [Hs Hm]. destruct Hd'. split.
      * by apply (sorted_nil field_name).
      * by destruct imapping.
  - destruct imapping; simpl; repeat case_decide;
      repeat match goal with Heq : _ = [] |- _ => rewrite Heq end; done.
Qed.

End KernelProperties.

(** C9. Two builds from the same symbol, spaces, mapping and backend -- each
    with its own random tag, its own names and its own set iteration order --
    give interfaces with the same "in" list and the same "inout" list, names
    and order included. *)
Theorem in_inout_lists_reproducible (E : SymbolicEngine) (P : Providers)
    (I1 I2 : Interpreter) expr spaces mapping irm backend
    name1 name2 iname1 iname2 k1 k2 itf1 itf2 :
  @GltKernel_new E P I1 expr spaces name1 mapping irm backend = Ok k1 →
  @GltKernel_new E P I2 expr spaces name2 mapping irm backend = Ok k2 →
  GltInterface_new (AKernel k1) iname1 mapping irm backend = Ok itf1 →
  GltInterface_new (AKernel k2) iname2 mapping irm backend = Ok itf2 →
  i_in_arguments itf1 = i_in_arguments itf2 ∧
  i_inout_arguments itf1 = i_inout_arguments itf2 ∧
  str <$> i_in_arguments itf1 = str <$> i_in_arguments itf2 ∧
  str <$> i_inout_arguments itf1 = str <$> i_inout_arguments itf2.
Proof.
  intros Hk1 Hk2 Hi1 Hi2.
  apply GltKernel_new_fields in Hk1 as (He1&_&Hc1&_&Hm1&_).
  apply GltKernel_new_fields in Hk2 as (He2&_&Hc2&_&Hm2&_).
  apply GltInterface_new_fields in Hi1 as (_&_&Hi1).
  apply GltInterface_new_fields in Hi2 as (_&_&Hi2).
  unfold GltInterface_initialize in Hi1, Hi2.
  injection Hi1 as _ Hin1 Hio1 _. injection Hi2 as _ Hin2 Hio2 _.
  assert (i_in_arguments itf1 = i_in_arguments itf2) as Hin.
  { rewrite Hin1, Hin2, He1, He2, Hc1, Hc2. done. }
  assert (i_inout_arguments itf1 = i_inout_arguments itf2) as Hio.
  { rewrite Hio1, Hio2, Hm1, Hm2. done. }
  by rewrite Hin, Hio.
Qed.

(** ** Derivative orders *)






Lemma cells_symbol_subs old new s :
  cells (symbol_subs old new s) = subs old new <$> cells s.
Proof. destruct s; simpl; [done|]. by rewrite <- list_fmap_compose. Qed.


(** ** Field atoms *)

Lemma scalar_fields_subs old new e :
  omap as_scalar_field (preorder_traversal (subs old new e))
  = omap as_scalar_field (preorder_traversal e).
Proof.
  induction e; simpl; try done.
  - by case_decide.
  - rewrite !omap_app. congruence.
  - rewrite !omap_app. congruence.
  - rewrite !omap_app. congruence.
Qed.

Lemma symbol_atoms_ScalarField_subs_all olds news s :
  symbol_atoms_ScalarField (subs_all olds news s) = symbol_atoms_ScalarField s.
Proof.
  unfold subs_all. revert s. induction (zip olds news) as [|on l IH]; intros s; [done|].
  simpl. rewrite IH. unfold symbol_atoms_ScalarField. f_equal.
  rewrite cells_symbol_subs. induction (cells s) as [|e l' IH']; [done|].
  rewrite fmap_cons, !bind_cons. f_equal; [apply scalar_fields_subs | apply IH'].
Qed.

Lemma is_field_term_spec t :
  is_field_term t = true ↔ omap as_scalar_field (preorder_term t) ≠ [].
Proof. induction t; simpl; try done. Qed.

Lemma atomic_term_is_field t :
  filter (λ a, is_field a = true) (_atomic_term atoms_types t) = [] ↔
  omap as_scalar_field (preorder_term t) = [].
Proof.
  destruct t as [f|n sp i|m i|lg ax t]; simpl; try done.
  assert (filter (λ a, is_field a = true) [Term (TPartial lg ax t)] = [] ↔
          omap as_scalar_field (preorder_term t) = []) as Hg.
  { rewrite filter_cons. simpl. case_decide as Hf.
    - apply is_field_term_spec in Hf. split; [discriminate|done].
    - rewrite is_field_term_spec in Hf. split; [|done]. intros _.
      destruct (decide (omap as_scalar_field (preorder_term t) = [])); [done|].
      by destruct Hf. }
  by destruct lg.
Qed.

Lemma atomic_nodes_is_field e :
  filter (λ a, is_field a = true) (_atomic_nodes atoms_types e) = [] ↔
  omap as_scalar_field (preorder_traversal e) = [].
Proof.
  induction e; simpl; try done.
  - apply atomic_term_is_field.
  - rewrite filter_app, omap_app, !app_nil. naive_solver.
  - rewrite filter_app, omap_app, !app_nil. naive_solver.
  - rewrite filter_app, omap_app, !app_nil. naive_solver.
Qed.

Lemma bind_nil_iff {A B} (f : A → list B) (l : list A) :
  l ≫= f = [] ↔ ∀ x, x ∈ l → f x = [].
Proof.
  induction l as [|x l IH]; simpl.
  - split; [|done]. intros _ x Hx. by apply elem_of_nil in Hx.
  - rewrite app_nil, IH. split.
    + intros [Hx Hl] y [->|Hy]%elem_of_cons; auto.
    + intros Hall. split; [apply Hall; left|]. intros y Hy. apply Hall. by right.
Qed.

Lemma filter_unique_nil {A} `{EqDecision A} (P : A → Prop) `{∀ x, Decision (P x)}
    (l : list A) :
  filter P (unique l) = [] ↔ filter P l = [].
Proof.
  assert (∀ l' : list A, filter P l' = [] ↔ ∀ x, x ∈ l' → ¬ P x) as Hf.
  { intros l'. split.
    - intros Hn x Hx HP.
      assert (x ∈ filter P l') as Hin by (by apply list_elem_of_filter).
      rewrite Hn in Hin. by apply elem_of_nil in Hin.
    - intros Hall. destruct (filter P l') as [|x l''] eqn:Hl; [done|].
      assert (x ∈ filter P l') as [HP Hx]%list_elem_of_filter by (rewrite Hl; left).
      by destruct (Hall x). }
  rewrite !Hf. by setoid_rewrite elem_of_unique.
Qed.

Lemma filter_bind_nil {A B} (P : B → Prop) `{∀ x, Decision (P x)}
    (f : A → list B) (l : list A) :
  filter P (l ≫= f) = [] ↔ ∀ x, x ∈ l → filter P (f x) = [].
Proof.
  induction l as [|x l IH].
  - split; [|done]. intros _ x Hx. by apply elem_of_nil in Hx.
  - rewrite bind_cons, filter_app, app_nil, IH. split.
    + intros [Hx Hl] y [->|Hy]%elem_of_cons; auto.
    + intros Hall. split; [apply Hall; left|]. intros y Hy. apply Hall. by right.
Qed.

Lemma atomic_expr_field_nil s :
  filter (λ a, is_field a = true) (_atomic atoms_types s) = [] ↔
  symbol_atoms_ScalarField s = [].
Proof.
  unfold _atomic, symbol_atoms_ScalarField.
  rewrite filter_unique_nil, unique_nil, bind_nil_iff, filter_bind_nil.
  split; intros Hall e He; apply atomic_nodes_is_field, Hall, He.
Qed.

Lemma groupby_nil {A} (key : A → string) l : groupby key l = [] ↔ l = [].
Proof.
  split; [|by intros ->]. destruct l as [|x l]; [done|]. simpl.
  destruct (groupby key l) as [|[k g] rest]; [done|]. by case_decide.
Qed.

Section DependencyProperties.
Context {SE : SymbolicEngine} {PR : Providers} {PY : Interpreter}.

Lemma length_build_eval_fields groups aef mapping backend space evs :
  build_eval_fields groups aef mapping backend space = Ok evs →
  length evs = length groups.
Proof.
  revert space evs. induction groups as [|[key g] groups IH]; intros space evs; simpl.
  - by intros [= <-].
  - destruct (scan_expressions _ _ _ _) as [r|]; simpl; [|done].
    destruct (r.2) as [sp|]; [|done].
    destruct (build_eval_fields _ _ _ _ _) as [evs'|] eqn:Hb; simpl; [|done].
    intros [= <-]. simpl. f_equal. by eapply IH.
Qed.

Lemma field_atoms_nil s : field_atoms s = [] ↔ symbol_atoms_ScalarField s = [].
Proof.
  unfold field_atoms. split.
  - intros Hn. apply Permutation_nil_r. rewrite <- Hn. symmetry. apply set_iter_perm.
  - intros ->. apply Permutation_nil_r. apply set_iter_perm.
Qed.

Lemma symbol_atoms_ScalarField_renamed expr spaces mapping :
  symbol_atoms_ScalarField (renamed_symbol expr spaces mapping)
  = symbol_atoms_ScalarField (reduced_symbol expr spaces mapping).
Proof. unfold renamed_symbol. by rewrite !symbol_atoms_ScalarField_subs_all. Qed.

Lemma create_eval_fields_nil expr spaces mapping backend evs :
  create_eval_fields (renamed_symbol expr spaces mapping) mapping backend = Ok evs →
  evs = [] ↔ ¬ scalar_field_dependent (reduced_symbol expr spaces mapping).
Proof.
  unfold create_eval_fields, atomic_expr_field, scalar_field_dependent.
  rewrite <- symbol_atoms_ScalarField_renamed.
  set (s1 := renamed_symbol expr spaces mapping).
  case_decide as Ha.
  - intros [= <-]. apply atomic_expr_field_nil in Ha. rewrite Ha. naive_solver.
  - intros Hb%length_build_eval_fields.
    rewrite atomic_expr_field_nil in Ha. split.
    + intros ->. simpl in Hb. symmetry in Hb.
      apply length_zero_iff_nil, groupby_nil in Hb.
      apply (sorted_nil field_space), field_atoms_nil in Hb. done.
    + intros Hn. by destruct Hn.
Qed.




End DependencyProperties.

(** ** Checking the keyword arguments *)

Section FacadeProperties.
Context {V : Type}.
Implicit Types kwargs acc : gmap string V.

Lemma take_mandatory_missing keys kwargs acc key :
  key ∈ keys → kwargs !! key = None →
  take_mandatory keys kwargs acc = Raise KeyError.
Proof.
  revert acc. induction keys as [|k keys IH]; intros acc Hin Hnone.
  - by apply elem_of_nil in Hin.
  - simpl. destruct (kwargs !! k) as [v|] eqn:Hk; [|done].
    apply elem_of_cons in Hin as [->|Hin]; [congruence|]. by apply IH.
Qed.

Lemma take_mandatory_present keys kwargs acc :
  (∀ key, key ∈ keys → is_Some (kwargs !! key)) →
  ∃ kw, take_mandatory keys kwargs acc = Ok kw ∧
    ∀ key, kw !! key = if decide (key ∈ keys) then kwargs !! key else acc !! key.
Proof.
  revert acc. induction keys as [|k keys IH]; intros acc Hall; simpl.
  - by exists acc.
  - destruct (Hall k) as [v Hv]; [left|]. rewrite Hv.
    destruct (IH (<[k := v]> acc)) as (kw & Hkw & Hlook).
    { intros key Hkey. apply Hall. by right. }
    exists kw. split; [done|]. intros key. rewrite Hlook.
    destruct (decide (key = k)) as [->|Hne].
    + rewrite lookup_insert_eq. repeat case_decide; try congruence;
        exfalso; set_solver.
    + rewrite lookup_insert_ne by done. repeat case_decide; try congruence;
        exfalso; set_solver.
Qed.

Lemma take_optional_lookup keys kwargs acc key :
  take_optional keys kwargs acc !! key =
    if decide (key ∈ keys)
    then match kwargs !! key with Some v => Some v | None => acc !! key end
    else acc !! key.
Proof.
  revert acc. induction keys as [|k keys IH]; intros acc; simpl.
  - done.
  - destruct (kwargs !! k) as [v|] eqn:Hk; rewrite IH.
    + destruct (decide (key = k)) as [->|Hne].
      * rewrite lookup_insert_eq, Hk. repeat case_decide; try congruence;
          exfalso; set_solver.
      * rewrite lookup_insert_ne by done. repeat case_decide; try congruence;
          exfalso; set_solver.
    + destruct (decide (key = k)) as [->|Hne].
      * rewrite Hk. repeat case_decide; try congruence; exfalso; set_solver.
      * repeat case_decide; try congruence; exfalso; set_solver.
Qed.

(** C7. If a declared "in" name is missing from the keyword arguments, the
    check raises [KeyError] and [evaluate] raises it too, so no call is made.
    When every "in" name is given, the check succeeds whatever "inout" names
    are missing, and the arguments it passes on are exactly those given under
    a declared name: anything else the caller passed is dropped. *)
Theorem check_arguments_mandatory_in_optional_inout
    (self : @DiscreteGltExpr) (args : list V) (kwargs : gmap string V) :
  let ins := str <$> i_in_arguments (d_interface self) in
  let inouts := str <$> i_inout_arguments (d_interface self) in
  (∀ key, key ∈ ins → kwargs !! key = None →
     _check_arguments (d_interface self) kwargs = Raise KeyError ∧
     evaluate self args kwargs = Raise KeyError) ∧
  ((∀ key, key ∈ ins → is_Some (kwargs !! key)) →
     ∃ kw, _check_arguments (d_interface self) kwargs = Ok kw ∧
       ∀ key, kw !! key
              = if decide (key ∈ ins ∨ key ∈ inouts) then kwargs !! key else None).
Proof.
  cbv zeta. split.
  - intros key Hin Hnone.
    assert (_check_arguments (d_interface self) kwargs = Raise KeyError) as Hc.
    { unfold _check_arguments. by erewrite take_mandatory_missing. }
    split; [done|]. unfold evaluate. by rewrite Hc.
  - intros Hall. unfold _check_arguments.
    destruct (take_mandatory_present _ kwargs ∅ Hall) as (kw & -> & Hkw).
    simpl. eexists. split; [done|]. intros key.
    rewrite take_optional_lookup, Hkw, lookup_empty.
    destruct (decide (key ∈ str <$> i_in_arguments (d_interface self))) as [Hi|Hi];
      destruct (decide (key ∈ str <$> i_inout_arguments (d_interface self))) as [Ho|Ho].
    + case_decide as Hd; [by destruct (kwargs !! key)|]. destruct Hd. auto.
    + case_decide as Hd; [done|]. destruct Hd. auto.
    + case_decide as Hd; [by destruct (kwargs !! key)|]. destruct Hd. auto.
    + case_decide as Hd; [|done]. by destruct Hd.
Qed.

End FacadeProperties.

(** ** The call of the kernel inside the interface *)

Lemma find_call_app f l l' :
  Forall (λ st, is_call st = false) l → find_call f (l ++ l') = find_call f l'.
Proof.
  induction 1 as [|st l Hst _ IH]; simpl; [done|]. by destruct st.
Qed.

Lemma find_call_here f args l : find_call f (FunctionCall f args :: l) = Some args.
Proof. simpl. by rewrite decide_True. Qed.

Lemma no_call_fmap {A} (f : A → Stmt) (l : list A) :
  (∀ x, is_call (f x) = false) → Forall (λ st, is_call st = false) (f <$> l).
Proof. intros Hf. apply Forall_fmap, Forall_true. intros x. apply Hf. Qed.

Lemma no_call_imap {A} (f : nat → A → Stmt) (l : list A) :
  (∀ i x, is_call (f i x) = false) → Forall (λ st, is_call st = false) (imap f l).
Proof.
  intros Hf. revert f Hf. induction l as [|x l IH]; intros f Hf; simpl; [done|].
  constructor; [apply Hf|]. apply IH. intros i y. apply Hf.
Qed.

Lemma Forall2_same {A} (R : A → A → Prop) (l : list A) :
  (∀ x, R x x) → Forall2 R l l.
Proof. intros HR. induction l; constructor; auto. Qed.

Section CallProperties.
Context {SE : SymbolicEngine} {PR : Providers} {PY : Interpreter}.

Lemma find_call_interface k name imapping :
  find_call (kd_name (k_func k))
    (fd_body (GltInterface_initialize k name imapping).2)
  = Some (interface_call_arguments k imapping).
Proof.
  unfold GltInterface_initialize, interface_call_arguments. cbv zeta. simpl.
  set (args := kernel_build_arguments _ _ _).
  set (args' := kernel_build_arguments _ _ _).
  assert (args = args') as ->.
  { subst args args'. f_equal. f_equal. f_equal.
    case_bool_decide as Hd; case_decide as Hd'; try done.
    - destruct Hd. destruct Hd' as [-> ->]. done.
    - destruct Hd as [Hs Hm]. destruct Hd'. split; [done|]. by destruct imapping. }
  assert (∀ pre post, Forall (λ st, is_call st = false) pre →
            find_call (kd_name (k_func k))
              ((pre ++ [FunctionCall (kd_name (k_func k)) args']) ++ post)
            = Some args') as Hfind.
  { intros pre post Hpre. rewrite <- app_assoc, find_call_app by done.
    apply find_call_here. }
  destruct (k_global_mats k) as [|M [|M' l]] eqn:Hmats;
    rewrite Hfind; try done;
    repeat first [ apply Forall_app; split | apply no_call_fmap; by intros []
                 | apply no_call_imap; by intros
                 | destruct imapping; simpl
                 | case_bool_decide; simpl
                 | apply Forall_cons; split; [done|]
                 | apply Forall_nil ].
  all: done.
Qed.

Lemma fields_symbols_nil s : fields_symbols s = [] ↔ field_atoms s = [].
Proof.
  unfold fields_symbols, atomic_expr_field.
  rewrite field_atoms_nil, <- atomic_expr_field_nil. split.
  - intros Hs%fmap_nil_inv. apply (proj1 (sorted_nil id _)) in Hs.
    by apply fmap_nil_inv in Hs.
  - by intros ->.
Qed.

Lemma supplies_refl_list (l : list Obj) : Forall2 supplies l l.
Proof. apply Forall2_same. constructor. Qed.

Lemma supplies_ranges prefix_i prefix_k dtype rank dim :
  (∀ i : nat, supplies (IndexedVariable (prefix_i +:+ pretty i) dtype rank)
                       (IndexedVariable (prefix_k +:+ pretty i) dtype rank)) →
  Forall2 supplies (indexed_variables_range prefix_i dim dtype rank)
                   (indexed_variables_range prefix_k dim dtype rank).
Proof.
  intros Hs. unfold indexed_variables_range, range_names.
  rewrite <- !list_fmap_compose. apply Forall2_fmap, Forall2_same. intros i. apply Hs.
Qed.

Lemma supplies_build_arguments basic consts d1 d2 :
  Forall2 supplies d1 d2 →
  Forall2 supplies (kernel_build_arguments basic consts d1)
                   (kernel_build_arguments basic consts d2).
Proof.
  intros Hd. unfold kernel_build_arguments.
  apply Forall2_app; [apply supplies_refl_list|].
  case_decide; [done|]. apply Forall2_app; [done|apply supplies_refl_list].
Qed.

Lemma supplies_field_coeffs s1 dim (fields : list ScalarField) :
  field_name <$> field_atoms s1 = field_name <$> fields →
  Forall2 supplies ((λ F, DottedName (FieldObj F) ["_coeffs"; "_data"]) <$> fields)
                   (fields_coeffs_of s1 dim).
Proof.
  intros Hn. unfold fields_coeffs_of, indexed_variables.
  rewrite (list_fmap_compose field_name (λ n, "coeff_" +:+ n)), Hn.
  rewrite <- !list_fmap_compose. apply Forall2_fmap, Forall2_same.
  intros F. simpl. constructor.
Qed.

Lemma supplies_mapping_coeffs k dim :
  Forall2 supplies (mapping_coeffs k) (local_mapping_coeffs (k_eval_mapping k) dim).
Proof.
  unfold mapping_coeffs, local_mapping_coeffs, indexed_variables.
  destruct (k_eval_mapping k) as [em|]; simpl; [|constructor].
  rewrite <- list_fmap_compose.
  rewrite <- (list_fmap_id (mapping_coeffs_of em)) at 1.
  apply Forall2_fmap, Forall2_same. intros c. simpl. constructor.
Qed.

(** When the interface is built with the kernel's mapping and the kernel
    meets the field atoms of the symbol in the name order of the form's
    fields, every argument of the interface's call supplies the parameter the
    kernel declares at the same position. *)
Lemma interface_call_follows_kernel_declaration
    expr spaces name mapping irm backend k iname iirm ibackend itf :
  GltKernel_new expr spaces name mapping irm backend = Ok k →
  GltInterface_new (AKernel k) iname mapping iirm ibackend = Ok itf →
  field_name <$> field_atoms (renamed_symbol expr spaces mapping)
  = field_name <$> sorted field_name (form_fields (form expr)) →
  ∃ args, kernel_call_args itf = Some args ∧
          Forall2 supplies args (kd_args (k_func k)).
Proof.
  intros Hk Hi Hnames.
  apply GltKernel_new_fields in Hk as (He&_&Hc&Hb&Hm&_&_&_&_&Hargs&_).
  apply GltInterface_new_fields in Hi as (Hik&_&Hi).
  exists (interface_call_arguments k mapping). split.
  { unfold kernel_call_args. rewrite Hik.
    replace (i_func itf) with
      (GltInterface_initialize k (default_name "interface" (k_tag k) iname) mapping).2
      by (by rewrite <- Hi).
    apply find_call_interface. }
  set (s1 := renamed_symbol expr spaces mapping) in *.
  assert (field_atoms s1 = [] ↔ sorted field_name (form_fields (form expr)) = [])
    as Hempty.
  { split; intros Hn.
    - rewrite Hn in Hnames. symmetry in Hnames. by apply fmap_nil_inv in Hnames.
    - rewrite Hn in Hnames. by apply fmap_nil_inv in Hnames. }
  unfold function_args in Hargs. unfold interface_call_arguments.
  rewrite He. fold (ldim expr).
  destruct (decide (fields_symbols s1 = [] ∧ mapping = None)) as [[Hfs Hmap]|Hgate];
    simpl in Hargs.
  - apply fields_symbols_nil, Hempty in Hfs.
    rewrite decide_True by done. injection Hargs as <-.
    rewrite Hb, Hc, Hm. apply supplies_build_arguments.
    apply Forall2_app; [apply supplies_refl_list|]. simpl.
    apply Forall2_app; [by apply supplies_field_coeffs|].
    apply Forall2_app; [apply supplies_mapping_coeffs|apply supplies_refl_list].
  - unfold grid_tables in Hargs.
    destruct (decide (sorted field_name (form_fields (form expr)) = [] ∧ mapping = None))
      as [Hgi|Hgi]; simpl in Hargs; [done|].
    injection Hargs as <-.
    rewrite Hb, Hc, Hm. apply supplies_build_arguments.
    apply Forall2_app; [apply supplies_refl_list|].
    apply Forall2_app.
    { apply Forall2_app; [apply supplies_refl_list|].
      apply Forall2_app; apply supplies_ranges; constructor. }
    apply Forall2_app; [by apply supplies_field_coeffs|].
    apply Forall2_app; [apply supplies_mapping_coeffs|apply supplies_refl_list].
Qed.

End CallProperties.

(** ** The properties at concrete inputs *)

Import Examples.
#[local] Existing Instance providers.

(** C1 (the code at a failing input). For the form with the two fields [F]
    and [G], on a run whose set iteration lists [G] before [F], the kernel
    declares [coeff_G] before [coeff_F] while the interface passes the
    coefficients of [F] before those of [G]: the call does not follow the
    order of the declaration. *)
Theorem field_coefficient_order_mismatch :
  ∃ k itf,
    _create_ast (SE := engine_of two_fields_symbol) (PR := providers)
      (PY := reverse_order) python (V1, V1) two_fields "t" None None = Ok (k, itf) ∧
    kd_args (k_func k) =
      [IndexedVariable "arr_t1" "real" 1; PyVariable "int" "p1";
       IndexedVariable "spans1" "int" 1; IndexedVariable "basis1" "real" 4;
       IndexedVariable "coeff_G" "real" 1; IndexedVariable "coeff_F" "real" 1;
       IndexedBase "symbol_00"] ∧
    kernel_call_args itf = Some
      [IndexedVariable "arr_t1" "real" 1; PyVariable "int" "p1";
       IndexedVariable "spans_1" "int" 1; IndexedVariable "basis_1" "real" 4;
       DottedName (FieldObj F) ["_coeffs"; "_data"];
       DottedName (FieldObj G) ["_coeffs"; "_data"];
       IndexedBase "symbol_00"] ∧
    ∀ args, kernel_call_args itf = Some args →
      ¬ Forall2 (supplies (PR := providers)) args (kd_args (k_func k)).
Proof.
  eexists _, _. split; [vm_compute; reflexivity|].
  split; [vm_compute; reflexivity|]. split; [vm_compute; reflexivity|].
  intros args Hargs. vm_compute in Hargs. injection Hargs as <-.
  intros HF. vm_compute in HF.
  do 4 (apply Forall2_cons_1 in HF as [_ HF]).
  apply Forall2_cons_1 in HF as [Hs _].
  inversion Hs.
Qed.

(** C10 at the Poisson form. *)
Lemma mapping_accessors_empty_witness :
  ∃ k, GltKernel_new (SE := engine_of poisson_symbol) (PR := providers)
         (PY := insertion_order) poisson (V2, V2) None None None (Some python) = Ok k ∧
       k_eval_mapping k = None ∧ mapping_coeffs k = [] ∧ mapping_values k = [].
Proof.
  eexists. split; [vm_compute; reflexivity|].
  apply (mapping_accessors_empty_without_mapping (SE := engine_of poisson_symbol)
           (PR := providers) (PY := insertion_order)
           poisson (V2, V2) None None (Some python)).
  vm_compute. reflexivity.
Defined.

(** C3 at the 2x2 system: cell (0,1) holds the imaginary unit. *)
Lemma cell_dtype_witness :
  ∃ k, GltKernel_new (SE := engine_of system_symbol) (PR := providers)
         (PY := insertion_order) system (V2, V2) None (Some M) None (Some python) = Ok k ∧
       0 < 2 ∧ 1 < 2 ∧
       k_global_mats_types k !! 1 = Some "complex".
Proof.
  eexists. split; [vm_compute; reflexivity|].
  split; [lia|]. split; [lia|].
  apply (cell_dtype_follows_imaginary_unit (SE := engine_of system_symbol)
           (PR := providers) (PY := insertion_order)
           system (V2, V2) None (Some M) None (Some python) _ 0 1).
  - vm_compute. reflexivity.
  - vm_compute. lia.
  - vm_compute. lia.
Defined.



(** C4 at the 2x2 system. *)
Lemma output_matrices_witness :
  ∃ k itf,
    GltKernel_new (SE := engine_of system_symbol) (PY := insertion_order)
      system (V2, V2) None (Some M) None (Some python) = Ok k ∧
    GltInterface_new (AKernel k) None (Some M) None (Some python) = Ok itf ∧
    length (k_global_mats k) = 2 * 2 ∧
    k_global_mats k !! (1 * 2 + 0) = Some (IndexedBase "symbol_10") ∧
    last (fd_body (i_func itf)) = Some (Return (ETuple (k_global_mats k))).
Proof.
  eexists _, _. split; [vm_compute; reflexivity|]. split; [vm_compute; reflexivity|].
  destruct (output_matrices_and_return
              (SE := engine_of system_symbol) (PY := insertion_order)
              system (V2, V2) None (Some M) None (Some python) _
              None (Some M) None (Some python) _
              ltac:(vm_compute; reflexivity) ltac:(vm_compute; reflexivity))
    as (Hmat & _ & _ & Htuple).
  destruct (Hmat true 2 2 _ eq_refl) as [Hlen Hlook].
  split; [exact Hlen|]. split; [exact (Hlook 1 0 ltac:(lia) ltac:(lia))|].
  apply Htuple. vm_compute. lia.
Defined.

(** C5 at the 2x2 system, for the complex cell. *)
Lemma conditional_allocation_witness :
  ∃ k itf,
    GltKernel_new (SE := engine_of system_symbol) (PY := insertion_order)
      system (V2, V2) None (Some M) None (Some python) = Ok k ∧
    GltInterface_new (AKernel k) None (Some M) None (Some python) = Ok itf ∧
    k_global_mats k !! 1 = Some (IndexedBase "symbol_01") ∧
    ∃ dtype, k_global_mats_types k !! 1 = Some dtype ∧
      allocation (grid_shape 2) (IndexedBase "symbol_01") dtype ∈ fd_body (i_func itf).
Proof.
  eexists _, _. split; [vm_compute; reflexivity|]. split; [vm_compute; reflexivity|].
  split; [vm_compute; reflexivity|].
  destruct (conditional_allocation_of_outputs
              (SE := engine_of system_symbol) (PY := insertion_order)
              system (V2, V2) None (Some M) None (Some python) _
              None (Some M) None (Some python) _
              ltac:(vm_compute; reflexivity) ltac:(vm_compute; reflexivity)
              1 (IndexedBase "symbol_01") ltac:(vm_compute; reflexivity))
    as (dtype & Hd & Hin & _).
  exists dtype. split; [exact Hd|exact Hin].
Defined.

(** C6 as stated fails: the interface of the Poisson form starts with the
    grid arrays and the test space. *)
Lemma interface_signature_has_prefix :
  ∃ k itf,
    GltKernel_new (SE := engine_of poisson_symbol) (PY := insertion_order)
      poisson (V2, V2) None None None (Some python) = Ok k ∧
    GltInterface_new (AKernel k) None None None (Some python) = Ok itf ∧
    fd_args (i_func itf) =
      [Positional (IndexedVariable "arr_t1" "real" 1);
       Positional (IndexedVariable "arr_t2" "real" 1);
       Positional (Symbol "W"); DefaultNil (IndexedBase "symbol_00")] ∧
    spec_signature k None = [DefaultNil (IndexedBase "symbol_00")] ∧
    fd_args (i_func itf) ≠ spec_signature k None.
Proof.
  eexists _, _. split; [vm_compute; reflexivity|]. split; [vm_compute; reflexivity|].
  split; [vm_compute; reflexivity|]. split; [vm_compute; reflexivity|].
  vm_compute. discriminate.
Qed.

(** C6 (as the code has it) at the 2x2 system. *)
Lemma interface_signature_witness :
  ∃ k itf,
    GltKernel_new (SE := engine_of system_symbol) (PY := insertion_order)
      system (V2, V2) None (Some M) None (Some python) = Ok k ∧
    GltInterface_new (AKernel k) None (Some M) None (Some python) = Ok itf ∧
    fd_args (i_func itf) =
      (Positional <$> [IndexedVariable "arr_t1" "real" 1;
                       IndexedVariable "arr_t2" "real" 1;
                       Symbol "W"; Symbol "basis_values"])
      ++ spec_signature k (Some M).
Proof.
  eexists _, _. split; [vm_compute; reflexivity|]. split; [vm_compute; reflexivity|].
  exact (interface_signature_with_basic_prefix
           (SE := engine_of system_symbol) (PY := insertion_order)
           system (V2, V2) None (Some M) None (Some python) _
           None (Some M) None (Some python) _
           ltac:(vm_compute; reflexivity) ltac:(vm_compute; reflexivity)).
Defined.



(** C9 at the two-field form: two runs that differ in tag and in set
    iteration order. *)
Lemma in_inout_lists_witness :
  ∃ k1 k2 itf1 itf2,
    GltKernel_new (SE := engine_of two_fields_symbol) (PY := insertion_order)
      two_fields (V1, V1) None None None (Some python) = Ok k1 ∧
    GltKernel_new (SE := engine_of two_fields_symbol) (PY := reverse_order)
      two_fields (V1, V1) None None None (Some python) = Ok k2 ∧
    GltInterface_new (AKernel k1) None None None (Some python) = Ok itf1 ∧
    GltInterface_new (AKernel k2) None None None (Some python) = Ok itf2 ∧
    k_tag k1 ≠ k_tag k2 ∧
    i_in_arguments itf1 = i_in_arguments itf2 ∧
    i_inout_arguments itf1 = i_inout_arguments itf2.
Proof.
  eexists _, _, _, _.
  split; [vm_compute; reflexivity|]. split; [vm_compute; reflexivity|].
  split; [vm_compute; reflexivity|]. split; [vm_compute; reflexivity|].
  split; [vm_compute; discriminate|].
  destruct (in_inout_lists_reproducible
              (engine_of two_fields_symbol) providers insertion_order reverse_order
              two_fields (V1, V1) None None (Some python) None None None None
              _ _ _ _
              ltac:(vm_compute; reflexivity) ltac:(vm_compute; reflexivity)
              ltac:(vm_compute; reflexivity) ltac:(vm_compute; reflexivity))
    as (Hin & Hio & _).
  split; [exact Hin|exact Hio].
Defined.

(** C7 at the interface of the two-field form: without [G] the call raises
    [KeyError]; with [F] and [G], the unknown keyword [extra] is dropped and
    the missing output matrix is accepted. *)
Lemma check_arguments_witness :
  ∃ k itf,
    _create_ast (SE := engine_of two_fields_symbol) (PY := insertion_order)
      python (V1, V1) two_fields "t" None None = Ok (k, itf) ∧
    let self := {| d_expr := two_fields; d_mapping := None;
                   d_spaces := (V1, V1); d_interface := itf |} in
    "G" ∈ str <$> i_in_arguments itf ∧
    evaluate self [10; 20] ({[ "F" := 1 ]} : gmap string nat) = Raise KeyError ∧
    ∃ kw, _check_arguments itf
            ({[ "F" := 1; "G" := 2; "extra" := 3 ]} : gmap string nat) = Ok kw ∧
          kw !! "F" = Some 1 ∧ kw !! "extra" = None ∧ kw !! "symbol_00" = None.
Proof.
  eexists _, _. split; [vm_compute; reflexivity|]. cbv zeta.
  match goal with
  | |- context [evaluate ?s _ _] => set (self := s)
  end.
  assert ("G" ∈ str <$> i_in_arguments (d_interface self)) as HG.
  { vm_compute. right. left. }
  split; [exact HG|]. split.
  - destruct (check_arguments_mandatory_in_optional_inout self [10; 20]
                ({[ "F" := 1 ]} : gmap string nat)) as [Hmiss _].
    exact (proj2 (Hmiss "G" HG ltac:(vm_compute; reflexivity))).
  - destruct (check_arguments_mandatory_in_optional_inout self [10; 20]
                ({[ "F" := 1; "G" := 2; "extra" := 3 ]} : gmap string nat))
      as [_ Hok].
    destruct Hok as (kw & Hkw & Hlook).
    { intros key Hkey. vm_compute in Hkey.
      apply elem_of_cons in Hkey as [->|Hkey]; [by eexists|].
      apply elem_of_cons in Hkey as [->|Hkey]; [by eexists|].
      by apply elem_of_nil in Hkey. }
    exists kw. split; [exact Hkw|]. rewrite !Hlook. split; [|split].
    + vm_compute. reflexivity.
    + vm_compute. reflexivity.
    + vm_compute. reflexivity.
Defined.

(** * Further properties of the generators and the facade *)

(** ** The field sub-kernels are always created *)

Lemma elem_of_insert_by {A} (key : A → string) x y l :
  y ∈ insert_by key x l ↔ y = x ∨ y ∈ l.
Proof.
  induction l as [|z l IH]; simpl.
  - rewrite list_elem_of_singleton, elem_of_nil. naive_solver.
  - case_match; rewrite !elem_of_cons, ?IH; naive_solver.
Qed.

Lemma elem_of_sorted {A} (key : A → string) x l : x ∈ sorted key l ↔ x ∈ l.
Proof.
  induction l as [|y l IH]; simpl; [done|].
  rewrite elem_of_insert_by, IH, elem_of_cons. done.
Qed.

Lemma groupby_groups {A} (key : A → string) (l : list A) k g :
  (k, g) ∈ groupby key l → g ≠ [] ∧ ∀ x, x ∈ g → x ∈ l.
Proof.
  revert k g. induction l as [|y l IH]; intros k g; simpl.
  - by intros ?%elem_of_nil.
  - destruct (groupby key l) as [|[k' g'] rest] eqn:Hg.
    + intros [= -> ->]%list_elem_of_singleton. split; [done|].
      intros x ->%list_elem_of_singleton. left.
    + case_decide as Hk.
      * intros [[= -> ->]|Hin]%elem_of_cons.
        -- split; [done|]. intros x [->|Hx]%elem_of_cons; [left|right].
           apply (IH k' g'); [left|done].
        -- destruct (IH k g) as [Hne Hsub]; [by right|].
           split; [done|]. intros x Hx. right. by apply Hsub.
      * intros [[= -> ->]|Hin]%elem_of_cons.
        -- split; [done|]. intros x ->%list_elem_of_singleton. left.
        -- destruct (IH k g) as [Hne Hsub]; [done|].
           split; [done|]. intros x Hx. right. by apply Hsub.
Qed.

Lemma intersects_spec a b : intersects a b = true ↔ ∃ x, x ∈ a ∧ x ∈ b.
Proof.
  unfold intersects. rewrite existsb_exists. split.
  - intros (x & Hx%list_elem_of_In & Hb%bool_decide_eq_true). eauto.
  - intros (x & Hx & Hb). exists x. split; [by apply list_elem_of_In|].
    by apply bool_decide_eq_true.
Qed.

Lemma field_in_atomic_term f t :
  f ∈ omap as_scalar_field (preorder_term t) →
  ∃ a, a ∈ _atomic_term atoms_types t ∧ is_field a = true ∧ f ∈ atoms_ScalarField a.
Proof.
  intros Hf. exists (Term t).
  assert (is_field_term t = true) as Hfld.
  { apply is_field_term_spec. intros Hn. rewrite Hn in Hf. by apply elem_of_nil in Hf. }
  split; [|split; [done|]].
  - destruct t as [| | |[] ax t]; simpl in *; try done; left.
  - unfold atoms_ScalarField. by apply elem_of_unique.
Qed.

Lemma field_in_atomic_nodes f e :
  f ∈ omap as_scalar_field (preorder_traversal e) →
  ∃ a, a ∈ _atomic_nodes atoms_types e ∧ is_field a = true ∧ f ∈ atoms_ScalarField a.
Proof.
  induction e; simpl; try (by intros ?%elem_of_nil).
  - apply field_in_atomic_term.
  - rewrite omap_app, elem_of_app. intros [Hf|Hf];
      [destruct (IHe1 Hf) as (a & ? & ? & ?)|destruct (IHe2 Hf) as (a & ? & ? & ?)];
      exists a; rewrite elem_of_app; auto.
  - rewrite omap_app, elem_of_app. intros [Hf|Hf];
      [destruct (IHe1 Hf) as (a & ? & ? & ?)|destruct (IHe2 Hf) as (a & ? & ? & ?)];
      exists a; rewrite elem_of_app; auto.
  - rewrite omap_app, elem_of_app. intros [Hf|Hf];
      [destruct (IHe1 Hf) as (a & ? & ? & ?)|destruct (IHe2 Hf) as (a & ? & ? & ?)];
      exists a; rewrite elem_of_app; auto.
  - intros Hf. destruct (IHe Hf) as (a & ? & ? & ?). eauto.
Qed.

Section EvalFields.
Context {SE : SymbolicEngine} {PR : Providers} {PY : Interpreter}.

Lemma elem_of_field_atoms f s :
  f ∈ field_atoms s ↔ f ∈ symbol_atoms_ScalarField s.
Proof. unfold field_atoms. by rewrite set_iter_perm. Qed.

Lemma field_atom_has_expression f s :
  f ∈ field_atoms s →
  ∃ a, a ∈ atomic_expr_field s ∧ f ∈ atoms_ScalarField a.
Proof.
  rewrite elem_of_field_atoms. unfold symbol_atoms_ScalarField.
  rewrite elem_of_unique, list_elem_of_bind. intros (e & Hf & He).
  destruct (field_in_atomic_nodes f e Hf) as (a & Ha & Hfld & Hfa).
  exists a. split; [|done]. unfold atomic_expr_field, _atomic.
  apply list_elem_of_filter. split; [done|].
  apply elem_of_unique, list_elem_of_bind. eauto.
Qed.

Lemma scan_expressions_ok g_names es acc space :
  ∃ space', scan_expressions g_names es acc space
            = Ok (acc ++ filter (λ e, intersects (field_name <$> atoms_ScalarField e)
                                        g_names = true) es, space') ∧
    (space ≠ None → space' ≠ None) ∧
    (filter (λ e, intersects (field_name <$> atoms_ScalarField e) g_names = true) es ≠ []
     → space' ≠ None).
Proof.
  revert acc space. induction es as [|e es IH]; intros acc space; simpl.
  - exists space. rewrite app_nil_r. done.
  - rewrite filter_cons.
    destruct (intersects _ _) eqn:Hi.
    + rewrite decide_True by done.
      assert (∃ f, head (set_iter (atoms_ScalarField e)) = Some f) as [f Hf].
      { apply intersects_spec in Hi as (x & Hx & _).
        apply list_elem_of_fmap in Hx as (f & _ & Hin).
        rewrite <- (set_iter_perm (atoms_ScalarField e)) in Hin.
        destruct (set_iter (atoms_ScalarField e)) as [|f' l]; [by apply elem_of_nil in Hin|].
        by exists f'. }
      rewrite Hf.
      destruct (IH (acc ++ [e]) (Some (field_space f))) as (space' & -> & Hs & _).
      exists space'. rewrite <- app_assoc. split; [done|].
      split; intros _; by apply Hs.
    + rewrite decide_False by (by intros ?).
      destruct (IH acc space) as (space' & -> & Hs & Hf). eauto.
Qed.

Lemma build_eval_fields_ok groups s mapping backend space :
  (∀ k g, (k, g) ∈ groups → group_expressions s g ≠ []) →
  ∃ evs, build_eval_fields groups (atomic_expr_field s) mapping backend space = Ok evs ∧
    Forall2 (λ ev (kg : string * list ScalarField),
               ef_fields_expressions ev = group_expressions s kg.2 ∧
               ef_fields_expressions ev ≠ [] ∧
               ef_mapping ev = mapping ∧ ef_backend ev = backend) evs groups.
Proof.
  revert space. induction groups as [|[k g] groups IH]; intros space Hall; simpl.
  - exists []. split; [done|constructor].
  - destruct (scan_expressions_ok (field_name <$> g) (atomic_expr_field s) [] space)
      as (space' & -> & _ & Hsp).
    simpl. destruct space' as [sp|]; [|destruct Hsp; [apply (Hall k g); left|done]].
    destruct (IH (Some sp)) as (evs & -> & HF).
    { intros k' g' Hin. apply (Hall k' g'). by right. }
    simpl. eexists. split; [done|]. constructor; [|done]. simpl.
    split; [done|]. split; [|done]. apply (Hall k g). left.
Qed.

Lemma groups_select_expressions s k g :
  (k, g) ∈ groupby field_space (sorted field_space (field_atoms s)) →
  group_expressions s g ≠ [].
Proof.
  intros [Hne Hsub]%groupby_groups.
  destruct g as [|f g]; [done|].
  assert (f ∈ field_atoms s) as Hf by (apply (elem_of_sorted field_space), Hsub; left).
  destruct (field_atom_has_expression f s Hf) as (a & Ha & Hfa).
  assert (a ∈ group_expressions s (f :: g)) as Hin.
  { apply list_elem_of_filter. split; [|done]. apply intersects_spec.
    exists (field_name f). split; [by apply list_elem_of_fmap_2|].
    rewrite fmap_cons. left. }
  intros Hn. rewrite Hn in Hin. by apply elem_of_nil in Hin.
Qed.

Lemma create_eval_fields_succeeds s mapping backend :
  ∃ evs, create_eval_fields s mapping backend = Ok evs.
Proof.
  unfold create_eval_fields. case_decide as Ha; [by exists []|].
  destruct (build_eval_fields_ok _ s mapping backend None (groups_select_expressions s))
    as (evs & -> & _).
  by exists evs.
Qed.

(** X1. Creating the field sub-kernels never fails: every group of fields
    sharing a space selects at least one field-valued term of the symbol, so
    the local [space] is bound and [list(fs)[0]] exists.  One sub-kernel is
    made per group, in the order of the groups, for exactly the terms whose
    fields meet the group by name. *)
Theorem create_eval_fields_total s mapping backend :
  ∃ evs, create_eval_fields s mapping backend = Ok evs ∧
    Forall2 (λ ev (kg : string * list ScalarField),
               ef_fields_expressions ev = group_expressions s kg.2 ∧
               ef_fields_expressions ev ≠ [] ∧
               ef_mapping ev = mapping ∧ ef_backend ev = backend)
      evs (groupby field_space (sorted field_space (field_atoms s))).
Proof.
  unfold create_eval_fields. case_decide as Ha.
  - exists []. split; [done|].
    assert (field_atoms s = []) as ->; [|constructor].
    apply field_atoms_nil, atomic_expr_field_nil. exact Ha.
  - destruct (build_eval_fields_ok _ s mapping backend None (groups_select_expressions s))
      as (evs & -> & HF).
    by exists evs.
Qed.

Lemma grid_tables_None expr mapping :
  grid_tables expr mapping = None ↔ form_fields (form expr) = [] ∧ mapping = None.
Proof.
  unfold grid_tables. case_decide as Hd.
  - split; [|done]. intros _. destruct Hd as [Hs ->]. split; [|done].
    by apply (sorted_nil field_name).
  - split; [done|]. intros [Hf ->]. destruct Hd. by rewrite Hf.
Qed.

Lemma kernel_build_stages expr spaces mapping irm backend :
  (scalar_field_dependent (reduced_symbol expr spaces mapping) →
   form_fields (form expr) ≠ [] ∨ mapping ≠ None) →
  ∃ evs args,
    create_eval_fields (renamed_symbol expr spaces mapping) mapping backend = Ok evs ∧
    match evs, grid_tables expr mapping with
    | _ :: _, None => Raise UnboundLocalError
    | _, _ => Ok ()
    end = Ok () ∧
    function_args expr (renamed_symbol expr spaces mapping) mapping
      (create_eval_mapping spaces mapping
         (compute_nderiv (renamed_symbol expr spaces mapping)) irm backend)
      (shape (reduced_symbol expr spaces mapping)).1
      (shape (reduced_symbol expr spaces mapping)).2 = Ok args.
Proof.
  intros Hfields. set (s1 := renamed_symbol expr spaces mapping).
  destruct (create_eval_fields_succeeds s1 mapping backend) as (evs & Hevs).
  pose proof (create_eval_fields_nil _ _ _ _ _ Hevs) as Hnil.
  assert (scalar_field_dependent (reduced_symbol expr spaces mapping) →
          grid_tables expr mapping ≠ None) as Hgrid.
  { intros Hfd Hg. apply grid_tables_None in Hg as [Hf ->].
    destruct (Hfields Hfd); done. }
  assert (∃ args, function_args expr s1 mapping
            (create_eval_mapping spaces mapping (compute_nderiv s1) irm backend)
            (shape (reduced_symbol expr spaces mapping)).1
            (shape (reduced_symbol expr spaces mapping)).2 = Ok args) as [args Hargs].
  { unfold function_args. case_decide as Hgate; simpl; [eauto|].
    destruct (grid_tables expr mapping) as [[spans basis]|] eqn:Hg; simpl; [eauto|].
    apply grid_tables_None in Hg as [Hf ->]. destruct Hgate. split; [|done].
    apply fields_symbols_nil.
    destruct (decide (scalar_field_dependent (reduced_symbol expr spaces None))) as [Hfd|Hfd].
    - destruct (Hfields Hfd); done.
    - apply field_atoms_nil. unfold s1. rewrite symbol_atoms_ScalarField_renamed.
      unfold scalar_field_dependent in Hfd.
      by destruct (symbol_atoms_ScalarField _); [|destruct Hfd]. }
  exists evs, args. split; [done|]. split; [|done].
  destruct evs as [|ev evs']; [done|].
  destruct (grid_tables expr mapping) eqn:Hg; [done|].
  destruct Hgrid; [|done].
  destruct (decide (scalar_field_dependent (reduced_symbol expr spaces mapping))) as [|Hn];
    [done|]. by apply Hnil in Hn.
Qed.

(** X3. When the reduced symbol has scalar-field atoms while the form lists no
    field and no mapping is given, the build stops with [UnboundLocalError]
    (the call of the field sub-kernel reads [spans] and [basis], which were
    never bound), whatever the backend. *)
Theorem kernel_build_unbound_tables expr spaces name irm backend :
  scalar_field_dependent (reduced_symbol expr spaces None) →
  form_fields (form expr) = [] →
  GltKernel_new expr spaces name None irm backend = Raise UnboundLocalError.
Proof.
  intros Hfd Hf. set (s1 := renamed_symbol expr spaces None).
  destruct (create_eval_fields_succeeds s1 None backend) as (evs & Hevs).
  pose proof (create_eval_fields_nil _ _ _ _ _ Hevs) as Hnil.
  unfold GltKernel_new. fold s1. rewrite Hevs. simpl.
  destruct evs as [|ev evs]; [by apply Hnil in Hfd|].
  by rewrite (proj2 (grid_tables_None expr None)).
Qed.

(** X4. Otherwise the outcome is decided by the backend: no backend gives
    [TypeError], a backend without the key "name" gives [KeyError], and the
    pyccel backend gives [NameError]. *)
Theorem kernel_build_backend_errors expr spaces name mapping irm backend :
  (scalar_field_dependent (reduced_symbol expr spaces mapping) →
   form_fields (form expr) ≠ [] ∨ mapping ≠ None) →
  (backend = None →
     GltKernel_new expr spaces name mapping irm backend = Raise TypeError) ∧
  (∀ b, backend = Some b → b !! "name" = None →
     GltKernel_new expr spaces name mapping irm backend = Raise KeyError) ∧
  (∀ b, backend = Some b → b !! "name" = Some "pyccel" →
     GltKernel_new expr spaces name mapping irm backend = Raise NameError).
Proof.
  intros Hfields.
  destruct (kernel_build_stages expr spaces mapping irm backend Hfields)
    as (evs & args & Hevs & Hcall & Hargs).
  unfold GltKernel_new. rewrite Hevs. simpl. rewrite Hcall. simpl.
  rewrite Hargs. simpl. unfold backend_metadata.
  split; [by intros ->|]. split.
  - intros b -> Hn. by rewrite Hn.
  - intros b -> Hn. by rewrite Hn.
Qed.

(** X5. The metadata of a built kernel follows the backend name: numba
    gives the jit decorator, pythran gives a types header made from the
    kernel's name and its full argument list, any other name gives
    neither. *)
Theorem kernel_backend_metadata expr spaces name mapping irm backend k :
  GltKernel_new expr spaces name mapping irm backend = Ok k →
  ∃ b n, backend = Some b ∧ b !! "name" = Some n ∧ n ≠ "pyccel" ∧
    kd_decorators (k_func k) = (if decide (n = "numba") then JitDecorator else NoDecorator) ∧
    kd_header (k_func k)
    = (if decide (n = "pythran") then Some (k_name k, kd_args (k_func k)) else None).
Proof.
  intros Hk. unfold GltKernel_new in Hk. result_inv Hk.
  injection Hk as <-. simpl. unfold backend_metadata in E2.
  destruct backend as [b|]; [|done].
  destruct (b !! "name") as [n|] eqn:Hn; [|done].
  exists b, n. split; [done|]. split; [done|].
  repeat case_decide; simplify_eq; done.
Qed.

End EvalFields.

(** ** The facade and the two generators together *)

Section Wiring.
Context {SE : SymbolicEngine} {PR : Providers} {PY : Interpreter}.

(** X6. [_create_ast] builds the kernel and the interface with one mapping
    and one backend (the default when none is given), names them after the
    tag, and hands no [is_rational_mapping] to either: the mapping
    sub-kernel is requested with [None] whatever the geometry. *)
Theorem create_ast_wiring default_backend spaces expr tag mapping backend k itf :
  _create_ast default_backend spaces expr tag mapping backend = Ok (k, itf) →
  i_kernel itf = k ∧ i_dependencies itf = [k] ∧
  k_name k = "kernel_" +:+ tag ∧ i_name itf = "interface_" +:+ tag ∧
  i_tag itf = k_tag k ∧
  k_mapping k = mapping ∧ i_mapping itf = mapping ∧
  k_backend k = Some (default default_backend backend) ∧
  i_backend itf = k_backend k ∧
  k_is_rational_mapping k = None ∧ i_is_rational_mapping itf = None ∧
  (∀ em, k_eval_mapping k = Some em → em_is_rational_mapping em = None).
Proof.
  unfold _create_ast. intros Hc.
  destruct (GltKernel_new _ _ _ _ _ _) as [k'|] eqn:Hk; [|done].
  unfold mbind, result_bind in Hc. cbv beta iota in Hc.
  destruct (GltInterface_new _ _ _ _ _) as [itf'|] eqn:Hi; [|done].
  injection Hc as -> ->.
  unfold GltKernel_new in Hk. result_inv Hk. injection Hk as <-.
  unfold GltInterface_new in Hi.
  destruct (GltInterface_initialize _ _ _) as [[[ba ia] ioa] f].
  injection Hi as <-. simpl. repeat split; try done.
  intros em. unfold create_eval_mapping. destruct mapping; simpl; [|done].
  by intros [= <-].
Qed.

End Wiring.

Section FacadeMore.
Context {V : Type}.
Implicit Types kwargs kw : gmap string V.

Lemma check_arguments_Ok (itf : GltInterface) kwargs kw :
  _check_arguments itf kwargs = Ok kw →
  (∀ key, key ∈ str <$> i_in_arguments itf → is_Some (kwargs !! key)) ∧
  ∀ key, kw !! key
         = if decide (key ∈ str <$> i_in_arguments itf
                      ∨ key ∈ str <$> i_inout_arguments itf)
           then kwargs !! key else None.
Proof.
  intros Hc.
  assert (∀ key, key ∈ str <$> i_in_arguments itf → is_Some (kwargs !! key)) as Hall.
  { intros key Hin. destruct (kwargs !! key) eqn:Hk; [by eexists|].
    unfold _check_arguments in Hc.
    by rewrite (take_mandatory_missing _ _ _ key Hin Hk) in Hc. }
  split; [done|]. unfold _check_arguments in Hc.
  destruct (take_mandatory_present _ kwargs ∅ Hall) as (kw0 & Hkw0 & Hl0).
  rewrite Hkw0 in Hc. simpl in Hc. injection Hc as <-. intros key.
  rewrite take_optional_lookup, Hl0, lookup_empty.
  repeat case_decide; try done; try (by destruct (kwargs !! key)); naive_solver.
Qed.

(** X7. What the check lets through is a part of what the caller gave, and
    checking it again changes nothing. *)
Theorem check_arguments_idempotent (itf : GltInterface) kwargs kw :
  _check_arguments itf kwargs = Ok kw →
  kw ⊆ kwargs ∧ _check_arguments itf kw = Ok kw.
Proof.
  intros Hc. destruct (check_arguments_Ok itf kwargs kw Hc) as [Hall Hlook].
  split.
  - apply map_subseteq_spec. intros key v. rewrite Hlook. by case_decide.
  - assert (∀ key, key ∈ str <$> i_in_arguments itf → is_Some (kw !! key)) as Hall'.
    { intros key Hin. rewrite Hlook, decide_True by auto. by apply Hall. }
    unfold _check_arguments.
    destruct (take_mandatory_present _ kw ∅ Hall') as (kw0 & -> & Hl0). simpl.
    f_equal. apply map_eq. intros key.
    rewrite take_optional_lookup, Hl0, lookup_empty.
    repeat case_decide; try done; try (by destruct (kw !! key)).
    rewrite Hlook. rewrite decide_False; [done|]. naive_solver.
Qed.

(** X8. [evaluate] checks the keyword arguments first: a failed check is
    the outcome whatever the positional arguments are.  After a passed check
    it raises [ValueError] unless exactly two grids are given, and then
    calls the interface with the two grids, the second space, the basis
    values for derivative order 1 when the form has fields or the facade has
    a mapping, and the mapping. *)
Theorem evaluate_outcome (self : DiscreteGltExpr) (args : list V) kwargs :
  (∀ e, _check_arguments (d_interface self) kwargs = Raise e →
        evaluate self args kwargs = Raise e) ∧
  (∀ kw, _check_arguments (d_interface self) kwargs = Ok kw →
     (length args ≠ 2 → evaluate self args kwargs = Raise ValueError) ∧
     (∀ t1 t2, args = [t1; t2] →
        evaluate self args kwargs =
          Ok {| inv_func := i_name (d_interface self);
                inv_args :=
                  [Given t1; Given t2; SpaceArg (d_spaces self).2]
                  ++ (if decide (form_fields (form (d_expr self)) = []
                                 ∧ d_mapping self = None)
                      then []
                      else [CollocationBasisValues (t1, t2) (d_spaces self).2 1])
                  ++ from_option (λ m, [MappingArg m]) [] (d_mapping self);
                inv_kwargs := kw |})).
Proof.
  split.
  - intros e He. unfold evaluate. by rewrite He.
  - intros kw Hkw. unfold evaluate. rewrite Hkw. simpl. split.
    + intros Hlen. by destruct args as [|? [|? [|? ?]]].
    + intros t1 t2 ->. f_equal. f_equal.
      case_decide; destruct (d_mapping self); simpl; by rewrite <- ?app_assoc.
Qed.

End FacadeMore.

(** ** The facade's call against the interface's signature *)

Section Alignment.
Context {SE : SymbolicEngine} {PR : Providers} {PY : Interpreter} {V : Type}.



End Alignment.

(** ** The body of the interface *)

Section InterfaceBody.
Context {SE : SymbolicEngine} {PR : Providers} {PY : Interpreter}.

Lemma interface_body_shape k name imapping :
  ∃ pre,
    fd_body (GltInterface_initialize k name imapping).2
    = pre ++ [FunctionCall (kd_name (k_func k)) (interface_call_arguments k imapping);
              Return (match k_global_mats k with
                      | [M] => EObj M
                      | _ => ETuple (k_global_mats k)
                      end)] ∧
    Forall (λ st, is_call st = false) pre ∧
    (∀ st, st ∈ fd_body (GltInterface_initialize k name imapping).2 →
           (∀ v, st ≠ Return v) → is_call st = false → st ∈ pre).
Proof.
  unfold GltInterface_initialize, interface_call_arguments. cbv zeta. simpl.
  set (args := kernel_build_arguments _ _ _).
  set (args' := kernel_build_arguments _ _ _).
  assert (args = args') as ->.
  { subst args args'. f_equal. f_equal. f_equal.
    case_bool_decide as Hd; case_decide as Hd'; try done.
    - destruct Hd. destruct Hd' as [-> ->]. done.
    - destruct Hd as [Hs Hm]. destruct Hd'. split; [done|]. by destruct imapping. }
  match goal with
  | |- context [(?p ++ [FunctionCall _ _]) ++ [Return _]] => exists p
  end.
  split; [|split].
  - destruct (k_global_mats k) as [|M [|M' l]]; by rewrite <- app_assoc.
  - repeat first [ apply Forall_app; split | apply no_call_fmap; by intros []
                 | apply no_call_imap; by intros
                 | destruct imapping; simpl
                 | case_bool_decide; simpl
                 | apply Forall_cons; split; [done|]
                 | apply Forall_nil ]; done.
  - intros st Hin Hret Hcall.
    destruct (k_global_mats k) as [|M [|M' l]];
      rewrite !elem_of_app in Hin; rewrite ?elem_of_app;
      destruct Hin as [[Hin|Hin]|Hin]; try done;
      apply list_elem_of_singleton in Hin; subst st; try done;
      by edestruct Hret.
Qed.

(** X10. The body of a built interface calls the kernel exactly once, as its
    last statement before the return; everything else -- the length
    assignments, the extraction of tables and coefficients, the conditional
    allocations -- comes before that call. *)
Theorem interface_calls_kernel_once_before_return
    k iname imapping iirm ibackend itf :
  GltInterface_new (AKernel k) iname imapping iirm ibackend = Ok itf →
  ∃ pre args ret,
    fd_body (i_func itf) = pre ++ [FunctionCall (kd_name (k_func k)) args; Return ret] ∧
    kernel_call_args itf = Some args ∧
    Forall (λ st, is_call st = false) pre ∧
    ∀ M dtype lengths, allocation lengths M dtype ∈ fd_body (i_func itf) →
                       allocation lengths M dtype ∈ pre.
Proof.
  intros Hi. apply GltInterface_new_fields in Hi as (Hik&_&Hi).
  assert (i_func itf
          = (GltInterface_initialize k (default_name "interface" (k_tag k) iname)
               imapping).2) as Hf by (by rewrite <- Hi).
  destruct (interface_body_shape k (default_name "interface" (k_tag k) iname) imapping)
    as (pre & Hbody & Hpre & Hrest).
  exists pre, (interface_call_arguments k imapping). eexists.
  rewrite Hf. split; [exact Hbody|]. split; [|split; [done|]].
  - unfold kernel_call_args. rewrite Hik, Hf. apply find_call_interface.
  - intros M dtype lengths Hin. by apply Hrest.
Qed.

(** X11. An interface built with a mapping extracts every mapping
    coefficient of its kernel from the mapping object: the [i]-th
    coefficient is assigned from [mapping._fields[i]._coeffs._data]. *)
Theorem interface_extracts_mapping_coefficients
    k iname m iirm ibackend itf i c :
  GltInterface_new (AKernel k) iname (Some m) iirm ibackend = Ok itf →
  mapping_coeffs k !! i = Some c →
  Assign [c] (EObj (DottedName (Indexed (DottedName (Symbol "mapping") ["_fields"]) i)
                      ["_coeffs"; "_data"]))
  ∈ fd_body (i_func itf).
Proof.
  intros Hi Hc. apply GltInterface_new_fields in Hi as (_&_&Hi).
  unfold GltInterface_initialize in Hi. injection Hi as _ _ _ ->. simpl.
  match goal with
  | |- context [imap ?f (mapping_coeffs k)] =>
      assert (Assign [c] (EObj (DottedName
                (Indexed (DottedName (Symbol "mapping") ["_fields"]) i)
                ["_coeffs"; "_data"])) ∈ imap f (mapping_coeffs k)) as Hin
  end.
  { apply list_elem_of_lookup. exists i. by rewrite list_lookup_imap, Hc. }
  destruct (k_global_mats k) as [|M0 [|M1 l]];
    rewrite !elem_of_app; eauto 10.
Qed.

(** X12. An interface built without a mapping from a kernel that has one --
    the mapping is a parameter of [GltInterface] of its own, [None] by
    default -- and whose form lists no field, calls the kernel without the
    degrees, spans and basis tables the kernel declares: the call is short by
    three arguments per dimension and by the kernel's field coefficients. *)
Theorem interface_without_mapping_calls_short
    expr spaces name m irm backend k iname iirm ibackend itf :
  GltKernel_new expr spaces name (Some m) irm backend = Ok k →
  GltInterface_new (AKernel k) iname None iirm ibackend = Ok itf →
  form_fields (form expr) = [] →
  ∃ args, kernel_call_args itf = Some args ∧
    length (kd_args (k_func k))
    = length args + 3 * ldim expr
      + length (symbol_atoms_ScalarField (reduced_symbol expr spaces (Some m))).
Proof.
  intros Hk Hi Hff.
  apply GltKernel_new_fields in Hk as (He&_&Hc&Hb&Hm&_&Hem&_&_&Hargs&_).
  apply GltInterface_new_fields in Hi as (Hik&_&Hi).
  exists (interface_call_arguments k None). split.
  { unfold kernel_call_args. rewrite Hik.
    replace (i_func itf) with
      (GltInterface_initialize k (default_name "interface" (k_tag k) iname) None).2
      by (by rewrite <- Hi).
    apply find_call_interface. }
  unfold function_args in Hargs. rewrite decide_False in Hargs by (by intros [_ ?]).
  unfold grid_tables in Hargs. rewrite decide_False in Hargs by (by intros [_ ?]).
  simpl in Hargs. injection Hargs as <-.
  unfold interface_call_arguments. rewrite He, Hff. simpl.
  unfold kernel_build_arguments.
  rewrite Hb, Hc, Hm.
  assert (length (fields_coeffs_of (renamed_symbol expr spaces (Some m)) (ldim expr))
          = length (symbol_atoms_ScalarField (reduced_symbol expr spaces (Some m))))
    as Hfc.
  { unfold fields_coeffs_of, indexed_variables, field_atoms.
    rewrite !length_fmap, set_iter_perm. by rewrite symbol_atoms_ScalarField_renamed. }
  assert (length (local_mapping_coeffs (k_eval_mapping k) (ldim expr))
          = length (mapping_coeffs k)) as Hmc.
  { unfold local_mapping_coeffs, mapping_coeffs, indexed_variables.
    destruct (k_eval_mapping k); simpl; by rewrite ?length_fmap. }
  case_decide; rewrite !length_app, ?Hfc, ?Hmc;
    unfold variables_range, indexed_variables_range, range_names;
    rewrite !length_fmap, !length_seq; simpl; lia.
Qed.

(** X13. The output matrices are named by writing the row index and the
    column index one after the other, so in a symbol with more than eleven
    rows and columns the cells (1,11) and (11,1) get the same name. *)
Theorem large_matrix_output_names_collide
    expr spaces name mapping irm backend k im r c entry :
  GltKernel_new expr spaces name mapping irm backend = Ok k →
  reduced_symbol expr spaces mapping = DenseMatrix im r c entry →
  11 < r → 11 < c →
  1 * c + 11 ≠ 11 * c + 1 ∧
  k_global_mats k !! (1 * c + 11) = Some (IndexedBase "symbol_111") ∧
  k_global_mats k !! (11 * c + 1) = Some (IndexedBase "symbol_111") ∧
  ¬ NoDup (str <$> k_global_mats k).
Proof.
  intros Hk Hs Hr Hc.
  apply GltKernel_new_fields in Hk as (_&_&_&_&Hm&_). rewrite Hs in Hm. simpl in Hm.
  assert (k_global_mats k !! (1 * c + 11) = Some (IndexedBase "symbol_111")) as H1.
  { rewrite Hm. unfold global_mats_of.
    by rewrite list_lookup_fmap, lookup_cell_indices by lia. }
  assert (k_global_mats k !! (11 * c + 1) = Some (IndexedBase "symbol_111")) as H2.
  { rewrite Hm. unfold global_mats_of.
    by rewrite list_lookup_fmap, lookup_cell_indices by lia. }
  split; [lia|]. split; [done|]. split; [done|].
  intros Hnd. rewrite NoDup_alt in Hnd.
  assert (1 * c + 11 = 11 * c + 1); [|lia].
  apply (Hnd _ _ "symbol_111"); rewrite list_lookup_fmap; [by rewrite H1|by rewrite H2].
Qed.

End InterfaceBody.

(** ** The further properties at concrete inputs *)

Import MoreExamples.

Lemma kernel_build_unbound_tables_witness :
  scalar_field_dependent (reduced_symbol (SE := engine_of unlisted_field_symbol)
                     unlisted_field (V1, V1) None) ∧
  form_fields (form unlisted_field) = [] ∧
  GltKernel_new (SE := engine_of unlisted_field_symbol) (PY := insertion_order)
    unlisted_field (V1, V1) None None None (Some python) = Raise UnboundLocalError.
Proof.
  assert (scalar_field_dependent (reduced_symbol (SE := engine_of unlisted_field_symbol)
                             unlisted_field (V1, V1) None)) as Hfd
    by (vm_compute; discriminate).
  split; [exact Hfd|]. split; [reflexivity|].
  exact (kernel_build_unbound_tables (SE := engine_of unlisted_field_symbol)
           (PY := insertion_order) unlisted_field (V1, V1) None None (Some python)
           Hfd eq_refl).
Defined.

Lemma kernel_build_backend_errors_witness :
  GltKernel_new (SE := engine_of two_fields_symbol) (PY := insertion_order)
    two_fields (V1, V1) None None None None = Raise TypeError ∧
  GltKernel_new (SE := engine_of two_fields_symbol) (PY := insertion_order)
    two_fields (V1, V1) None None None (Some nameless) = Raise KeyError ∧
  GltKernel_new (SE := engine_of two_fields_symbol) (PY := insertion_order)
    two_fields (V1, V1) None None None (Some pyccel) = Raise NameError.
Proof.
  assert (scalar_field_dependent (reduced_symbol (SE := engine_of two_fields_symbol)
                             two_fields (V1, V1) None) →
          form_fields (form two_fields) ≠ [] ∨ (None : option Mapping) ≠ None) as Hf
    by (intros _; left; vm_compute; discriminate).
  split; [|split].
  - exact (proj1 (kernel_build_backend_errors (SE := engine_of two_fields_symbol)
                    (PY := insertion_order) two_fields (V1, V1) None None None None Hf)
             eq_refl).
  - exact (proj1 (proj2 (kernel_build_backend_errors (SE := engine_of two_fields_symbol)
                    (PY := insertion_order) two_fields (V1, V1) None None None
                    (Some nameless) Hf)) nameless eq_refl ltac:(vm_compute; reflexivity)).
  - exact (proj2 (proj2 (kernel_build_backend_errors (SE := engine_of two_fields_symbol)
                    (PY := insertion_order) two_fields (V1, V1) None None None
                    (Some pyccel) Hf)) pyccel eq_refl ltac:(vm_compute; reflexivity)).
Defined.

Lemma kernel_backend_metadata_witness :
  ∃ k, GltKernel_new (SE := engine_of poisson_symbol) (PY := insertion_order)
         poisson (V2, V2) None None None (Some pythran) = Ok k ∧
       kd_decorators (k_func k) = NoDecorator ∧
       kd_header (k_func k) = Some (k_name k, kd_args (k_func k)).
Proof.
  eexists. split; [vm_compute; reflexivity|].
  destruct (kernel_backend_metadata (SE := engine_of poisson_symbol)
              (PY := insertion_order) poisson (V2, V2) None None None (Some pythran) _
              ltac:(vm_compute; reflexivity)) as (b & n & Hb & Hn & _ & Hd & Hh).
  injection Hb as <-. vm_compute in Hn. injection Hn as <-.
  split; [exact Hd|exact Hh].
Defined.

Lemma create_ast_wiring_witness :
  ∃ k itf,
    _create_ast (SE := engine_of system_symbol) (PY := insertion_order)
      python (V2, V2) system "t" (Some M) None = Ok (k, itf) ∧
    k_backend k = Some python ∧ k_is_rational_mapping k = None ∧
    ∃ em, k_eval_mapping k = Some em ∧ em_is_rational_mapping em = None.
Proof.
  eexists _, _. split; [vm_compute; reflexivity|].
  destruct (create_ast_wiring (SE := engine_of system_symbol) (PY := insertion_order)
              python (V2, V2) system "t" (Some M) None _ _
              ltac:(vm_compute; reflexivity))
    as (_&_&_&_&_&_&_&Hb&_&Hr&_&Hem).
  split; [exact Hb|]. split; [exact Hr|].
  eexists. split; [vm_compute; reflexivity|]. apply Hem. vm_compute. reflexivity.
Defined.

Lemma check_arguments_idempotent_witness :
  ∃ k itf kw,
    _create_ast (SE := engine_of two_fields_symbol) (PY := insertion_order)
      python (V1, V1) two_fields "t" None None = Ok (k, itf) ∧
    _check_arguments itf
      ({[ "F" := 1; "G" := 2; "extra" := 3 ]} : gmap string nat) = Ok kw ∧
    kw ⊆ {[ "F" := 1; "G" := 2; "extra" := 3 ]} ∧
    _check_arguments itf kw = Ok kw.
Proof.
  eexists _, _, _. split; [vm_compute; reflexivity|].
  split; [vm_compute; reflexivity|].
  eapply (check_arguments_idempotent _
            ({[ "F" := 1; "G" := 2; "extra" := 3 ]} : gmap string nat)).
  vm_compute. reflexivity.
Defined.


Lemma interface_calls_kernel_once_witness :
  ∃ k itf,
    GltKernel_new (SE := engine_of system_symbol) (PY := insertion_order)
      system (V2, V2) None (Some M) None (Some python) = Ok k ∧
    GltInterface_new (AKernel k) None (Some M) None (Some python) = Ok itf ∧
    ∃ pre args ret,
      fd_body (i_func itf) = pre ++ [FunctionCall (kd_name (k_func k)) args; Return ret] ∧
      kernel_call_args itf = Some args ∧
      Forall (λ st, is_call st = false) pre.
Proof.
  eexists _, _. split; [vm_compute; reflexivity|]. split; [vm_compute; reflexivity|].
  match goal with
  | |- context [kernel_call_args ?i] => set (itf := i)
  end.
  destruct (interface_calls_kernel_once_before_return (PR := providers) (i_kernel itf)
              None (Some M) None (Some python) itf
              ltac:(vm_compute; reflexivity)) as (pre & args & ret & Hb & Hc & Hp & _).
  exists pre, args, ret. split; [exact Hb|]. split; [exact Hc|exact Hp].
Defined.

Lemma interface_extracts_mapping_coefficients_witness :
  ∃ k itf,
    GltKernel_new (SE := engine_of system_symbol) (PY := insertion_order)
      system (V2, V2) None (Some M) None (Some python) = Ok k ∧
    GltInterface_new (AKernel k) None (Some M) None (Some python) = Ok itf ∧
    mapping_coeffs k !! 1 = Some (IndexedVariable "coeff_x2" "real" 1) ∧
    Assign [IndexedVariable "coeff_x2" "real" 1]
      (EObj (DottedName (Indexed (DottedName (Symbol "mapping") ["_fields"]) 1)
               ["_coeffs"; "_data"]))
    ∈ fd_body (i_func itf).
Proof.
  eexists _, _. split; [vm_compute; reflexivity|]. split; [vm_compute; reflexivity|].
  split; [vm_compute; reflexivity|].
  match goal with
  | |- context [fd_body (i_func ?i)] => set (itf := i)
  end.
  apply (interface_extracts_mapping_coefficients (PR := providers) (i_kernel itf)
           None M None (Some python) itf 1).
  - vm_compute. reflexivity.
  - vm_compute. reflexivity.
Defined.

Lemma interface_without_mapping_witness :
  ∃ k itf args,
    GltKernel_new (SE := engine_of mapped_symbol) (PY := insertion_order)
      mapped (V1, V1) None (Some M) None (Some python) = Ok k ∧
    GltInterface_new (AKernel k) None None None (Some python) = Ok itf ∧
    form_fields (form mapped) = [] ∧
    kernel_call_args itf = Some args ∧
    length (kd_args (k_func k)) = length args + 3.
Proof.
  eexists _, _, _. split; [vm_compute; reflexivity|]. split; [vm_compute; reflexivity|].
  split; [reflexivity|]. split; [vm_compute; reflexivity|].
  destruct (interface_without_mapping_calls_short
              (SE := engine_of mapped_symbol) (PY := insertion_order)
              mapped (V1, V1) None M None (Some python) _ None None (Some python) _
              ltac:(vm_compute; reflexivity) ltac:(vm_compute; reflexivity) eq_refl)
    as (args & Hc & Hlen).
  vm_compute in Hc. injection Hc as <-. exact Hlen.
Defined.

Lemma large_matrix_names_witness :
  ∃ k, GltKernel_new (SE := engine_of wide_symbol) (PY := insertion_order)
         wide (V1, V1) None None None (Some python) = Ok k ∧
       11 < 12 ∧
       k_global_mats k !! 23 = Some (IndexedBase "symbol_111") ∧
       k_global_mats k !! 133 = Some (IndexedBase "symbol_111") ∧
       ¬ NoDup (str <$> k_global_mats k).
Proof.
  eexists. split; [vm_compute; reflexivity|]. split; [lia|].
  destruct (large_matrix_output_names_collide
              (SE := engine_of wide_symbol) (PY := insertion_order)
              wide (V1, V1) None None None (Some python) _ true 12 12 _
              ltac:(vm_compute; reflexivity) eq_refl ltac:(lia) ltac:(lia))
    as (_ & H1 & H2 & Hnd).
  split; [exact H1|]. split; [exact H2|exact Hnd].
Defined.
